(** * Shortest paths over a textual edge list: a shallow embedding of script.js

    The development models the four core functions of [script.js]
    ([parseEdges], [dijkstra], [reconstructPath], [extractNodes]) and proves
    the properties stated about them.

    Modelling decisions:
    - a JavaScript string is the list of its UTF-16 code units ([jsstring]);
    - a JavaScript [Map] keyed by strings is an association list kept in
      insertion order ([Map.set] on a present key overwrites in place, on an
      absent key appends), a [Set] is a duplicate-free list in insertion
      order;
    - a JavaScript number is an element of an abstract type ([JSNumber]) with
      the primitives the program uses ([Number], [+], [-], [<],
      [Number.isFinite]); the properties of IEEE-754 arithmetic the program
      relies on are collected in [JSNumberLaws].  The two zeros of IEEE-754
      are identified: no primitive used here tells them apart;
    - a thrown [Error] is the [Throw] alternative of [result], carrying the
      message;
    - the two [while] loops take a fuel argument that bounds the number of
      iterations of the loop body; [None] means the fuel ran out;
    - of the page, [escapeHtml], [renderResult] and the listener of the
      submit event are modelled: the document is the record [Page] of what
      [renderResult] writes (both elements are assumed to exist), and the two
      number formatters of the result view are parameters of the
      listener. *)

From Stdlib Require Import String Ascii.
From Stdlib Require Import List NArith ZArith Lia Bool.
From Stdlib Require Import Permutation Sorted.
Import ListNotations.

(** ** Strings *)

Definition jsstring := list N.

(** The code units of an ASCII literal. *)
Definition lit (s : string) : jsstring :=
  map N_of_ascii (list_ascii_of_string s).

Fixpoint str_eqb (a b : jsstring) : bool :=
  match a, b with
  | [], [] => true
  | x :: a', y :: b' => N.eqb x y && str_eqb a' b'
  | _, _ => false
  end.

(** [a < b] on strings: comparison of code units, left to right. *)
Fixpoint str_ltb (a b : jsstring) : bool :=
  match a, b with
  | _, [] => false
  | [], _ :: _ => true
  | x :: a', y :: b' => N.ltb x y || (N.eqb x y && str_ltb a' b')
  end.

(** White space and line terminators: the characters removed by
    [String.prototype.trim] and matched by the regular expression class
    [\s]. *)
Definition is_ws (c : N) : bool :=
  (((9 <=? c) && (c <=? 13)) || (c =? 32) || (c =? 160) || (c =? 5760)
   || ((8192 <=? c) && (c <=? 8202)) || (c =? 8232) || (c =? 8233)
   || (c =? 8239) || (c =? 8287) || (c =? 12288) || (c =? 65279))%N.

Fixpoint dropWhile {A} (p : A -> bool) (l : list A) : list A :=
  match l with
  | [] => []
  | x :: l' => if p x then dropWhile p l' else l
  end.

Definition trimStart (s : jsstring) : jsstring := dropWhile is_ws s.
Definition trimEnd (s : jsstring) : jsstring := rev (dropWhile is_ws (rev s)).
Definition trim (s : jsstring) : jsstring := trimEnd (trimStart s).

(** [text.split(/\r?\n/)]: [cur] holds the current piece, reversed. *)
Fixpoint splitLinesFrom (s : jsstring) (cur : jsstring) : list jsstring :=
  match s with
  | [] => [rev cur]
  | c :: rest =>
      if (c =? 10)%N then rev cur :: splitLinesFrom rest []
      else if (c =? 13)%N then
        match rest with
        | d :: rest' =>
            if (d =? 10)%N then rev cur :: splitLinesFrom rest' []
            else splitLinesFrom rest (c :: cur)
        | [] => splitLinesFrom rest (c :: cur)
        end
      else splitLinesFrom rest (c :: cur)
  end.

Definition splitLines (text : jsstring) : list jsstring :=
  splitLinesFrom text [].

(** [line.split(/\s+/)]: [insep] tells that the scan is inside a run of
    white space already closed by a piece. *)
Fixpoint splitWsFrom (s : jsstring) (cur : jsstring) (insep : bool)
  : list jsstring :=
  match s with
  | [] => [rev cur]
  | c :: rest =>
      if is_ws c then
        if insep then splitWsFrom rest cur true
        else rev cur :: splitWsFrom rest [] true
      else splitWsFrom rest (c :: cur) false
  end.

Definition splitWs (line : jsstring) : list jsstring :=
  splitWsFrom line [] false.

(** [!line || line.startsWith('#')] *)
Definition skipLine (line : jsstring) : bool :=
  match line with
  | [] => true
  | c :: _ => (c =? 35)%N
  end.

(** ** Maps and sets *)

Definition Map (V : Type) : Type := list (jsstring * V).

Section JSMap.
Context {V : Type}.

Fixpoint get (m : Map V) (k : jsstring) : option V :=
  match m with
  | [] => None
  | (k', v) :: m' => if str_eqb k' k then Some v else get m' k
  end.

Definition has (m : Map V) (k : jsstring) : bool :=
  match get m k with Some _ => true | None => false end.

Fixpoint set (m : Map V) (k : jsstring) (v : V) : Map V :=
  match m with
  | [] => [(k, v)]
  | (k', v') :: m' =>
      if str_eqb k' k then (k, v) :: m' else (k', v') :: set m' k v
  end.

Definition keys (m : Map V) : list jsstring := map fst m.
End JSMap.

Definition JSSet := list jsstring.

Definition Set_has (s : JSSet) (x : jsstring) : bool := existsb (str_eqb x) s.

Definition Set_add (s : JSSet) (x : jsstring) : JSSet :=
  if Set_has s x then s else s ++ [x].

(** [Array.prototype.sort]: a stable sort; [after x y] tells that the
    comparison function puts [x] after [y] (its result on [(x, y)] is
    positive). *)
Section ArraySort.
Context {A : Type}.
Variable after : A -> A -> bool.

Fixpoint sortInsert (x : A) (l : list A) : list A :=
  match l with
  | [] => [x]
  | y :: l' => if after x y then y :: sortInsert x l' else x :: l
  end.

Fixpoint Array_sort (l : list A) : list A :=
  match l with
  | [] => []
  | x :: l' => sortInsert x (Array_sort l')
  end.

(** [x] is not put after [y]: [x] may stay before [y]. *)
Definition notAfter (x y : A) : Prop := after x y = false.
End ArraySort.

(** ** Numbers *)

Class JSNumber := {
  number : Type;
  Number : jsstring -> number;
  zero : number;
  one : number;
  Infinity : number;
  add : number -> number -> number;
  sub : number -> number -> number;
  ltb : number -> number -> bool;
  isFinite : number -> bool
}.

(** A weight accepted by [parseEdges]: finite and not below zero. *)
Definition validWeight {JN : JSNumber} (w : number) : Prop :=
  isFinite w = true /\ ltb w zero = false.

(** [x <= y], as the negation of [y < x]. *)
Definition leq {JN : JSNumber} (x y : number) : Prop := ltb y x = false.

(** The values a distance can take: a valid weight or [Infinity]. *)
Definition distance {JN : JSNumber} (x : number) : Prop :=
  validWeight x \/ x = Infinity.

(** The facts of IEEE-754 arithmetic (round to nearest, the two zeros
    identified) that the program relies on, on the values it computes with:
    [<] is a strict total order on distances with [Infinity] on top,
    rounded addition of a valid weight does not decrease a distance and is
    monotone, and the sign of a difference of finite numbers is the sign of
    their comparison. *)
Class JSNumberLaws {JN : JSNumber} : Prop := {
  one_valid : validWeight one;
  zero_finite : isFinite zero = true;
  Infinity_not_finite : isFinite Infinity = false;
  ltb_irrefl : forall x, ltb x x = false;
  ltb_trans : forall x y z, ltb x y = true -> ltb y z = true -> ltb x z = true;
  ltb_total : forall x y, distance x -> distance y ->
    ltb x y = false -> ltb y x = false -> x = y;
  ltb_Infinity : forall x, distance x -> ltb x Infinity = isFinite x;
  Infinity_max : forall x, ltb Infinity x = false;
  add_distance : forall x w, distance x -> validWeight w -> distance (add x w);
  add_le : forall x w, distance x -> validWeight w -> ltb (add x w) x = false;
  add_mono : forall x y w, distance x -> distance y -> validWeight w ->
    ltb y x = false -> ltb (add y w) (add x w) = false;
  sub_pos : forall x y, validWeight x -> validWeight y ->
    ltb zero (sub x y) = ltb y x
}.

(** A concrete number structure, used to run the program on examples: the
    integers with the two infinities and NaN, with exact arithmetic.  It
    agrees with IEEE-754 doubles wherever all values involved are integers of
    magnitude below 2^53; its [Number] reads optionally signed decimal
    integer literals and [Infinity], and answers NaN on every other string
    (decimal fractions, exponents and radix prefixes are outside this
    instance). *)
Module IntNumber.

Inductive inum : Type :=
| NaN
| NegInf
| Fin (z : Z)
| PosInf.

Definition iadd (a b : inum) : inum :=
  match a, b with
  | NaN, _ | _, NaN => NaN
  | PosInf, NegInf | NegInf, PosInf => NaN
  | PosInf, _ | _, PosInf => PosInf
  | NegInf, _ | _, NegInf => NegInf
  | Fin x, Fin y => Fin (x + y)
  end.

Definition isub (a b : inum) : inum :=
  match a, b with
  | NaN, _ | _, NaN => NaN
  | PosInf, PosInf | NegInf, NegInf => NaN
  | PosInf, _ | _, NegInf => PosInf
  | NegInf, _ | _, PosInf => NegInf
  | Fin x, Fin y => Fin (x - y)
  end.

Definition iltb (a b : inum) : bool :=
  match a, b with
  | NaN, _ | _, NaN => false
  | _, NegInf => false
  | NegInf, _ => true
  | PosInf, _ => false
  | Fin _, PosInf => true
  | Fin x, Fin y => (x <? y)%Z
  end.

Definition iisFinite (a : inum) : bool :=
  match a with Fin _ => true | _ => false end.

(** The value of a run of decimal digits, [None] when another character
    occurs. *)
Fixpoint digits (s : jsstring) (acc : Z) : option Z :=
  match s with
  | [] => Some acc
  | c :: s' =>
      if ((48 <=? c) && (c <=? 57))%N
      then digits s' (10 * acc + Z.of_N (c - 48))%Z
      else None
  end.

Definition unsignedLiteral (s : jsstring) : inum :=
  if str_eqb s (lit "Infinity"%string) then PosInf
  else match s with
       | [] => NaN
       | _ :: _ => match digits s 0%Z with Some z => Fin z | None => NaN end
       end.

Definition ineg (a : inum) : inum :=
  match a with
  | NaN => NaN
  | NegInf => PosInf
  | PosInf => NegInf
  | Fin z => Fin (- z)
  end.

Definition iNumber (s : jsstring) : inum :=
  match s with
  | [] => Fin 0
  | c :: s' =>
      if (c =? 45)%N then ineg (unsignedLiteral s')
      else if (c =? 43)%N then unsignedLiteral s'
      else unsignedLiteral s
  end.

#[export] Instance IntJSNumber : JSNumber := {|
  number := inum;
  Number := iNumber;
  zero := Fin 0;
  one := Fin 1;
  Infinity := PosInf;
  add := iadd;
  sub := isub;
  ltb := iltb;
  isFinite := iisFinite
|}.

End IntNumber.

(** ** Results *)

Inductive result (A : Type) : Type :=
| Ok (a : A)
| Throw (message : jsstring).

Arguments Ok {A} a.
Arguments Throw {A} message.

Section Program.
Context {JN : JSNumber}.

Definition Graph := Map (Map number).

(** *** parseEdges *)

Definition ensure (graph : Graph) (u : jsstring) : Graph :=
  if has graph u then graph else set graph u [].

(** [graph.get(u).set(v, w)]: the inner map of [u] is updated in place. *)
Definition setEdge (graph : Graph) (u v : jsstring) (w : number) : Graph :=
  match get graph u with
  | Some adj => set graph u (set adj v w)
  | None => graph
  end.

Definition lineWeight (parts : list jsstring) : number :=
  if (3 <=? length parts)%nat then Number (nth 2 parts []) else one.

Definition invalidWeight (w : number) : bool :=
  negb (isFinite w) || ltb w zero.

Definition msgFields : jsstring := lit "Invalid edge line (need at least u v): "%string.
Definition msgWeight : jsstring := lit "Invalid weight at line: "%string.

(** The body of the [for] loop of [parseEdges] on one raw line. *)
Definition parseLine (undirected : bool) (graph : Graph) (raw : jsstring)
  : result Graph :=
  let line := trim raw in
  if skipLine line then Ok graph
  else
    let parts := splitWs line in
    if (length parts <? 2)%nat then Throw (msgFields ++ line)
    else
      let u := nth 0 parts [] in
      let v := nth 1 parts [] in
      let w := lineWeight parts in
      if invalidWeight w then Throw (msgWeight ++ line)
      else
        let graph := ensure (ensure graph u) v in
        let graph := setEdge graph u v w in
        Ok (if undirected then setEdge graph v u w else graph).

Fixpoint parseLines (undirected : bool) (lines : list jsstring)
  (graph : Graph) : result Graph :=
  match lines with
  | [] => Ok graph
  | raw :: rest =>
      match parseLine undirected graph raw with
      | Ok graph' => parseLines undirected rest graph'
      | Throw m => Throw m
      end
  end.

Definition parseEdges (text : jsstring) (undirected : bool) : result Graph :=
  parseLines undirected (splitLines text) [].

(** *** extractNodes *)

Definition extractLine (nodes : JSSet) (raw : jsstring) : JSSet :=
  let line := trim raw in
  if skipLine line then nodes
  else
    let parts := splitWs line in
    if (2 <=? length parts)%nat
    then Set_add (Set_add nodes (nth 0 parts [])) (nth 1 parts [])
    else nodes.

Definition extractNodes (text : jsstring) : list jsstring :=
  Array_sort (fun x y => str_ltb y x)
    (fold_left extractLine (splitLines text) []).

(** *** dijkstra *)

Record DState := mkDState {
  dist : Map number;
  prev : Map (option jsstring);
  visited : JSSet;
  pq : list (number * jsstring)
}.

(** [dist.get(v) ?? Infinity] *)
Definition distOf (d : Map number) (v : jsstring) : number :=
  match get d v with Some x => x | None => Infinity end.

(** [prev.get(v) ?? null] *)
Definition prevOf (p : Map (option jsstring)) (v : jsstring)
  : option jsstring :=
  match get p v with Some x => x | None => None end.

(** The comparison function [(a,b) => a[0]-b[0]] is positive. *)
Definition pqAfter (a b : number * jsstring) : bool :=
  ltb zero (sub (fst a) (fst b)).

(** [pop]: sort the queue, then shift its first entry. *)
Definition pop (q : list (number * jsstring))
  : option ((number * jsstring) * list (number * jsstring)) :=
  match Array_sort pqAfter q with
  | [] => None
  | x :: rest => Some (x, rest)
  end.

(** [push]: append an entry to the queue. *)
Definition push (q : list (number * jsstring)) (d : number) (u : jsstring)
  : list (number * jsstring) :=
  q ++ [(d, u)].

(** The body of the [for] loop over [adj.entries()]. *)
Definition relax (dCur : number) (u : jsstring) (st : DState)
  (e : jsstring * number) : DState :=
  let (v, w) := e in
  let alt := add dCur w in
  if ltb alt (distOf (dist st) v) then
    mkDState (set (dist st) v alt) (set (prev st) v (Some u))
             (visited st) (push (pq st) alt v)
  else st.

Definition adjOf (graph : Graph) (u : jsstring) : Map number :=
  match get graph u with Some adj => adj | None => [] end.

(** One iteration of the [while] loop, on a non-empty queue. *)
Definition step (graph : Graph) (st : DState) : DState :=
  match pop (pq st) with
  | None => st
  | Some ((dCur, u), rest) =>
      if Set_has (visited st) u
      then mkDState (dist st) (prev st) (visited st) rest
      else
        fold_left (relax dCur u) (adjOf graph u)
          (mkDState (dist st) (prev st) (Set_add (visited st) u) rest)
  end.

Fixpoint loop (fuel : nat) (graph : Graph) (st : DState) : option DState :=
  match pq st with
  | [] => Some st
  | _ :: _ =>
      match fuel with
      | O => None
      | S fuel' => loop fuel' graph (step graph st)
      end
  end.

Definition initMaps (graph : Graph)
  : Map number * Map (option jsstring) :=
  fold_left (fun dp u => (set (fst dp) u Infinity, set (snd dp) u None))
    (keys graph) ([], []).

Definition msgSource (source : jsstring) : jsstring :=
  lit "Source '"%string ++ source ++ lit "' not in graph."%string.

Definition dijkstra (fuel : nat) (graph : Graph) (source : jsstring)
  : option (result (Map number * Map (option jsstring))) :=
  let (dist0, prev0) := initMaps graph in
  if negb (has graph source) then Some (Throw (msgSource source))
  else
    match loop fuel graph
            (mkDState (set dist0 source zero) prev0 [] [(zero, source)]) with
    | Some st => Some (Ok (dist st, prev st))
    | None => None
    end.

(** *** reconstructPath *)

Fixpoint reconstructLoop (fuel : nat) (prev : Map (option jsstring))
  (cur : option jsstring) (path : list jsstring) : option (list jsstring) :=
  match cur with
  | None => Some path
  | Some c =>
      match fuel with
      | O => None
      | S fuel' => reconstructLoop fuel' prev (prevOf prev c) (path ++ [c])
      end
  end.

Definition reconstructPath (fuel : nat) (prev : Map (option jsstring))
  (target : jsstring) : option (list jsstring) :=
  option_map (@rev jsstring) (reconstructLoop fuel prev (Some target) []).

End Program.

(** * The page: escapeHtml, renderResult and the submit handler *)

(** The characters matched by the class of the regular expression of
    [escapeHtml]: ampersand, less-than, greater-than, backslash, double
    quote and single quote. *)
Definition escapeClass (c : N) : bool :=
  ((c =? 38) || (c =? 60) || (c =? 62) || (c =? 92) || (c =? 34)
   || (c =? 39))%N.

(** The object literal of [escapeHtml], looked up at a character: it has
    no entry for the backslash. *)
Definition escapeTable (c : N) : option jsstring :=
  if (c =? 38)%N then Some (lit "&amp;"%string)
  else if (c =? 60)%N then Some (lit "&lt;"%string)
  else if (c =? 62)%N then Some (lit "&gt;"%string)
  else if (c =? 34)%N then Some (lit "&quot;"%string)
  else if (c =? 39)%N then Some (lit "&#39;"%string)
  else None.

(** What [replace] puts for one character: the result of the function on
    a match, converted to a string ([undefined] gives the text
    undefined), the character itself otherwise. *)
Definition escapeChar (c : N) : jsstring :=
  if escapeClass c then
    match escapeTable c with
    | Some e => e
    | None => lit "undefined"%string
    end
  else [c].

Definition escapeHtml (s : jsstring) : jsstring := flat_map escapeChar s.

(** The part of the document that [renderResult] writes: the markup of the
    result content and the [hidden] flag of the result container. *)
Record Page : Type := mkPage {
  resultContent : jsstring;
  resultHidden : bool
}.

Definition renderResult (ok : bool) (html : jsstring) (page : Page) : Page :=
  mkPage html false.

(** [Array.prototype.join] on strings. *)
Fixpoint join (sep : jsstring) (l : list jsstring) : jsstring :=
  match l with
  | [] => []
  | [x] => x
  | x :: l' => x ++ sep ++ join sep l'
  end.

Section Handler.
Context {JN : JSNumber}.

(** The two number formatters of the result view: [total.toFixed(3)] and
    [JSON.stringify(Object.fromEntries(dist), null, 0)]. *)
Variable toFixed3 : number -> jsstring.
Variable stringifyDist : Map number -> jsstring.

Definition dquote : jsstring := [34%N].
Definition newline : jsstring := [10%N].
Definition arrow : jsstring := [32%N; 8594%N; 32%N].

(** [String(err.message || err)]: an error with an empty message is shown
    by its name. *)
Definition messageText (message : jsstring) : jsstring :=
  match message with
  | [] => lit "Error"%string
  | _ :: _ => message
  end.

Definition errorHtml (message : jsstring) : jsstring :=
  lit "<div class="%string ++ dquote ++ lit "error"%string ++ dquote
  ++ lit ">"%string ++ escapeHtml (messageText message)
  ++ lit "</div>"%string.

Definition noPathHtml (source target : jsstring) : jsstring :=
  lit "<div class="%string ++ dquote ++ lit "error"%string ++ dquote
  ++ lit ">No path found between "%string ++ escapeHtml source
  ++ lit " and "%string ++ escapeHtml target ++ lit ".</div>"%string.

Definition resultHtml (path : list jsstring) (total : number)
  (dist : Map number) : jsstring :=
  newline
  ++ lit "        <div class="%string ++ dquote ++ lit "kv"%string ++ dquote
  ++ lit ">"%string ++ newline
  ++ lit "          <div>Shortest Path</div>"%string ++ newline
  ++ lit "          <div class="%string ++ dquote ++ lit "path"%string
  ++ dquote ++ lit ">"%string ++ join arrow (map escapeHtml path)
  ++ lit "</div>"%string ++ newline
  ++ lit "          <div>Total Distance (km)</div>"%string ++ newline
  ++ lit "          <div>"%string ++ toFixed3 total ++ lit " km</div>"%string
  ++ newline
  ++ lit "          <div>All Distances</div>"%string ++ newline
  ++ lit "          <div class="%string ++ dquote ++ lit "muted"%string
  ++ dquote ++ lit ">"%string ++ escapeHtml (stringifyDist dist)
  ++ lit "</div>"%string ++ newline
  ++ lit "        </div>"%string.

(** The listener of the submit event, on the values of the three fields and
    of the check box. *)
Definition submit (fuel : nat) (edges source target : jsstring)
  (undirected : bool) (page : Page) : option Page :=
  match parseEdges (trim edges) undirected with
  | Throw m => Some (renderResult false (errorHtml m) page)
  | Ok graph =>
      match dijkstra fuel graph (trim source) with
      | None => None
      | Some (Throw m) => Some (renderResult false (errorHtml m) page)
      | Some (Ok (dist, prev)) =>
          match get dist (trim target) with
          | None =>
              Some (renderResult false (noPathHtml source target) page)
          | Some total =>
              if negb (isFinite total)
              then Some (renderResult false (noPathHtml source target) page)
              else
                match reconstructPath fuel prev (trim target) with
                | None => None
                | Some path =>
                    Some (renderResult true (resultHtml path total dist)
                            page)
                end
          end
      end
  end.
End Handler.

(** * Vocabulary of the statements *)

(** [x] is the first or the second field of the raw line [raw], which is
    neither empty nor a comment and has at least two fields. *)
Definition nodeOfLine (raw x : jsstring) : Prop :=
  let parts := splitWs (trim raw) in
  skipLine (trim raw) = false /\ 2 <= length parts /\
  (x = nth 0 parts [] \/ x = nth 1 parts []).

Section Vocabulary.
Context {JN : JSNumber}.

(** The raw line has fewer than two fields. *)
Definition tooFewFields (raw : jsstring) : Prop :=
  length (splitWs (trim raw)) < 2.

(** The raw line has a third field that [Number] does not read as a valid
    weight. *)
Definition badWeightField (raw : jsstring) : Prop :=
  3 <= length (splitWs (trim raw)) /\
  ~ validWeight (Number (nth 2 (splitWs (trim raw)) [])).

(** A line that is neither empty nor a comment and is malformed. *)
Definition offending (raw : jsstring) : Prop :=
  skipLine (trim raw) = false /\ (tooFewFields raw \/ badWeightField raw).

(** The message names the reason and ends with the trimmed line. *)
Definition carries (raw msg : jsstring) : Prop :=
  (tooFewFields raw /\ msg = msgFields ++ trim raw) \/
  (badWeightField raw /\ msg = msgWeight ++ trim raw).
(** [graph[u][v]], when defined. *)
Definition edgeWeight (g : Graph) (u v : jsstring) : option number :=
  match get g u with
  | Some adj => get adj v
  | None => None
  end.

(** The raw line is an edge line whose first two fields are [u] and
    [v]. *)
Definition edgeEnds (raw u v : jsstring) : Prop :=
  skipLine (trim raw) = false /\ 2 <= length (splitWs (trim raw)) /\
  u = nth 0 (splitWs (trim raw)) [] /\ v = nth 1 (splitWs (trim raw)) [].

(** The raw line is parsed as the edge [(u, v, w)]. *)
Definition parsedEdge (raw u v : jsstring) (w : number) : Prop :=
  edgeEnds raw u v /\ w = lineWeight (splitWs (trim raw)).

(** The raw line is an edge line between [u] and [v], in one direction
    or the other. *)
Definition joins (raw u v : jsstring) : Prop :=
  edgeEnds raw u v \/ edgeEnds raw v u.

(** The graph after the body of the loop has run on an edge line. *)
Definition addEdge (und : bool) (g : Graph) (u v : jsstring) (w : number)
  : Graph :=
  let g1 := setEdge (ensure (ensure g u) v) u v w in
  if und then setEdge g1 v u w else g1.

(** What every graph built by [parseEdges] satisfies: the keys of an
    adjacency map are distinct, its weights are valid, and every neighbour
    is a key of the graph. *)
Definition wf_graph (g : Graph) : Prop :=
  forall u adj, get g u = Some adj ->
    NoDup (keys adj) /\
    forall v w, get adj v = Some w -> validWeight w /\ has g v = true.
(** The summed weight of the walk that starts at [cur] with the weight
    [acc] already accumulated and visits [rest], edge after edge, in the
    order in which [dijkstra] adds them up; [None] when an edge is
    missing. *)
Fixpoint walkWeight (g : Graph) (acc : number) (cur : jsstring)
  (rest : list jsstring) : option number :=
  match rest with
  | [] => Some acc
  | nxt :: rest' =>
      match edgeWeight g cur nxt with
      | Some w => walkWeight g (add acc w) nxt rest'
      | None => None
      end
  end.

Definition pathWeight (g : Graph) (p : list jsstring) : option number :=
  match p with
  | [] => None
  | a :: rest => walkWeight g zero a rest
  end.

(** [p] is a sequence of nodes from [s] to [n], consecutive nodes are
    joined by an edge of [g], and the edge weights sum up to [d]. *)
Definition isPath (g : Graph) (s n : jsstring) (p : list jsstring)
  (d : number) : Prop :=
  hd_error p = Some s /\ last p s = n /\ pathWeight g p = Some d.

Definition reachable (g : Graph) (s n : jsstring) : Prop :=
  exists p d, isPath g s n p d.

(** The number of adjacency entries of the nodes not yet visited, and the
    measure that decreases with every iteration of the main loop. *)
Definition unsettled (g : Graph) (vis : JSSet) : nat :=
  list_sum (map (fun e : jsstring * Map number =>
                   if Set_has vis (fst e) then 0 else length (snd e)) g).

Definition potential (g : Graph) (st : DState) : nat :=
  length (pq st) + unsettled g (visited st).

(** Enough fuel for the main loop on [g]. *)
Definition fuelBound (g : Graph) : nat := S (unsettled g []).

(** The loop invariant of [dijkstra], but for the relaxation of the edges
    out of the visited nodes. *)
Record Core (g : Graph) (s : jsstring) (st : DState) : Prop := {
  inv_dist : forall v, distance (distOf (dist st) v);
  inv_source : distOf (dist st) s = zero /\ prevOf (prev st) s = None;
  inv_pq : forall d v, In (d, v) (pq st) ->
    validWeight d /\ leq (distOf (dist st) v) d /\ has g v = true;
  inv_frontier : forall v, ~ In v (visited st) ->
    isFinite (distOf (dist st) v) = true ->
    In (distOf (dist st) v, v) (pq st);
  inv_settled : forall u d v, In u (visited st) -> In (d, v) (pq st) ->
    leq (distOf (dist st) u) d;
  inv_visited : forall u, In u (visited st) ->
    isFinite (distOf (dist st) u) = true /\ has g u = true;
  inv_prev : forall v u, prevOf (prev st) v = Some u ->
    In u (visited st) /\
    exists w, edgeWeight g u v = Some w /\
              distOf (dist st) v = add (distOf (dist st) u) w /\
              isFinite (distOf (dist st) v) = true;
  inv_reached : forall v, isFinite (distOf (dist st) v) = true ->
    v = s \/ exists u, prevOf (prev st) v = Some u;
  inv_order : forall l1 v l2 u, visited st = l1 ++ v :: l2 ->
    prevOf (prev st) v = Some u -> In u l1;
  inv_nodup : NoDup (visited st);
  inv_keys_dist : forall k, In k (keys (dist st)) <-> In k (keys g);
  inv_keys_prev : forall k, In k (keys (prev st)) <-> In k (keys g)
}.

(** The distance map and the predecessor map have the keys of the graph. *)
Definition keysAgree (g : Graph) (dmap : Map number)
  (pmap : Map (option jsstring)) : Prop :=
  forall k, (In k (keys dmap) <-> In k (keys g)) /\
            (In k (keys pmap) <-> In k (keys g)).

(** The edge from [u] to [v] of weight [w] is relaxed. *)
Definition relaxed (st : DState) (u v : jsstring) (w : number) : Prop :=
  leq (distOf (dist st) v) (add (distOf (dist st) u) w).

(** The invariant between two iterations of the main loop. *)
Definition Inv (g : Graph) (s : jsstring) (st : DState) : Prop :=
  Core g s st /\
  forall u v w, In u (visited st) -> edgeWeight g u v = Some w ->
    relaxed st u v w.

(** The invariant inside the relaxation of the edges of [u]; [todo] are
    the entries still to come. *)
Definition Mid (g : Graph) (s : jsstring) (st : DState) (u : jsstring)
  (todo : list (jsstring * number)) : Prop :=
  Core g s st /\
  In u (visited st) /\
  (forall u', In u' (visited st) ->
     leq (distOf (dist st) u') (distOf (dist st) u)) /\
  (forall v w, In (v, w) todo -> edgeWeight g u v = Some w) /\
  forall u' v w, In u' (visited st) -> edgeWeight g u' v = Some w ->
    (u' = u /\ In (v, w) todo) \/ relaxed st u' v w.
End Vocabulary.

(** * Vocabulary of the further properties *)

Section MoreVocabulary.
Context {JN : JSNumber}.

(** The raw line is an edge line that writes [graph[a][b]]: its fields are
    [a b], or [b a] when the graph is undirected. *)
Definition lineSets (und : bool) (raw a b : jsstring) : Prop :=
  edgeEnds raw a b \/ (und = true /\ edgeEnds raw b a).

(** [chain] follows the predecessor links of [prev] from its first node up
    to a node without predecessor. *)
Fixpoint linked (prev : Map (option jsstring)) (chain : list jsstring)
  : Prop :=
  match chain with
  | [] => False
  | x :: rest =>
      match rest with
      | [] => prevOf prev x = None
      | y :: _ => prevOf prev x = Some y /\ linked prev rest
      end
  end.

(** A token: a non-empty string without white space. *)
Definition token (s : jsstring) : Prop :=
  s <> [] /\ Forall (fun c => is_ws c = false) s.

(** The number of adjacency entries of a graph. *)
Definition entryCount (g : Graph) : nat :=
  list_sum (map (fun e : jsstring * Map number => length (snd e)) g).
End MoreVocabulary.

(** * Sample inputs *)

Module Samples.
Import IntNumber.

Definition A : jsstring := lit "A"%string.
Definition B : jsstring := lit "B"%string.
Definition C : jsstring := lit "C"%string.
Definition Z : jsstring := lit "Z"%string.

(** Two edge lines, [A B 5] and [B C 3]. *)
Definition lineAB5 : jsstring := lit "A B 5"%string.
Definition lineBC3 : jsstring := lit "B C 3"%string.
Definition chainText : jsstring := lineAB5 ++ [10%N] ++ lineBC3.

Definition graphOf (r : result Graph) : Graph :=
  match r with Ok g => g | Throw _ => [] end.

Definition chainGraph : Graph :=
  Eval cbv in graphOf (parseEdges chainText true).

Definition chainDirected : Graph :=
  Eval cbv in graphOf (parseEdges chainText false).

Definition mapsOf
  (r : option (result (Map number * Map (option jsstring))))
  : Map number * Map (option jsstring) :=
  match r with Some (Ok dp) => dp | _ => ([], []) end.

Definition chainDist : Map number :=
  Eval cbv in fst (mapsOf (dijkstra 4 chainGraph A)).

Definition chainPrev : Map (option jsstring) :=
  Eval cbv in snd (mapsOf (dijkstra 4 chainGraph A)).

Definition directedDist : Map number :=
  Eval cbv in fst (mapsOf (dijkstra 4 chainDirected C)).

Definition directedPrev : Map (option jsstring) :=
  Eval cbv in snd (mapsOf (dijkstra 4 chainDirected C)).

(** The same pair of nodes on two lines, with different weights. *)
Definition lineAB3 : jsstring := lit "A B 3"%string.
Definition twiceText : jsstring := lineAB5 ++ [10%N] ++ lineAB3.

(** A line without weight and the same line with the weight 1. *)
Definition lineAB : jsstring := lit "A B"%string.
Definition lineAB1 : jsstring := lit "A B 1"%string.
End Samples.

Module MoreSamples.
Import IntNumber Samples.

(** A graph with weights that [parseEdges] would refuse. *)
Definition negativeGraph : Graph :=
  [(A, [(B, Fin (-1))]); (B, [(A, Fin (-1))])].

(** A predecessor map with a cycle. *)
Definition loopPrev : Map (option jsstring) := [(A, Some A)].

(** Field values with white space around them. *)
Definition spacedA : jsstring := lit " A "%string.
Definition spacedText : jsstring := [10%N] ++ chainText ++ lit "  "%string.

(** Stand-ins for the two number formatters of the result view. *)
Definition plainFixed (x : number) : jsstring :=
  match x with
  | Fin 8 => lit "8.000"%string
  | _ => lit "?"%string
  end.
Definition plainStringify (d : Map number) : jsstring := lit "{}"%string.
End MoreSamples.

(** * Properties *)

(** ** Strings, maps and sets *)

Lemma str_eqb_spec (a b : jsstring) : reflect (a = b) (str_eqb a b).
Proof.
  revert b. induction a as [|x a IH]; intros [|y b]; simpl;
    try (constructor; congruence).
  destruct (N.eqb_spec x y) as [->|Hxy]; simpl.
  - destruct (IH b) as [->|Hab]; constructor; congruence.
  - constructor; congruence.
Qed.

Lemma str_eqb_refl (a : jsstring) : str_eqb a a = true.
Proof. destruct (str_eqb_spec a a); congruence. Qed.

Lemma str_eqb_neq (a b : jsstring) : a <> b -> str_eqb a b = false.
Proof. destruct (str_eqb_spec a b); congruence. Qed.

Lemma str_eq_dec (a b : jsstring) : {a = b} + {a <> b}.
Proof. destruct (str_eqb_spec a b); auto. Qed.

Section MapFacts.
Context {V : Type}.
Implicit Types (m : Map V) (k : jsstring) (v : V).

Lemma get_set_same m k v : get (set m k v) k = Some v.
Proof.
  induction m as [|[k' v'] m IH]; simpl.
  - now rewrite str_eqb_refl.
  - destruct (str_eqb_spec k' k) as [->|Hk]; simpl.
    + now rewrite str_eqb_refl.
    + now rewrite (str_eqb_neq _ _ Hk).
Qed.

Lemma get_set_other m k k' v : k <> k' -> get (set m k v) k' = get m k'.
Proof.
  intros Hk. induction m as [|[k0 v0] m IH]; simpl.
  - now rewrite (str_eqb_neq _ _ Hk).
  - destruct (str_eqb_spec k0 k) as [->|Hk0]; simpl.
    + now rewrite (str_eqb_neq _ _ Hk).
    + now rewrite IH.
Qed.

Lemma get_set m k k' v :
  get (set m k v) k' = if str_eqb k k' then Some v else get m k'.
Proof.
  destruct (str_eqb_spec k k') as [->|Hk].
  - apply get_set_same.
  - now apply get_set_other.
Qed.

Lemma has_set m k k' v : has (set m k v) k' = str_eqb k k' || has m k'.
Proof.
  unfold has. rewrite get_set. now destruct (str_eqb k k').
Qed.

Lemma has_In_keys m k : has m k = true <-> In k (keys m).
Proof.
  unfold has. induction m as [|[k' v'] m IH]; simpl.
  - split; [discriminate | tauto].
  - destruct (str_eqb_spec k' k) as [->|Hk].
    + split; auto.
    + rewrite IH. split; [auto | intros [H|H]; [congruence | exact H]].
Qed.

Lemma keys_set_In m k v x :
  In x (keys (set m k v)) <-> x = k \/ In x (keys m).
Proof.
  rewrite <- !has_In_keys, has_set, orb_true_iff.
  destruct (str_eqb_spec k x); intuition congruence.
Qed.

Lemma get_In m k v : get m k = Some v -> In (k, v) m.
Proof.
  induction m as [|[k' v'] m IH]; simpl; [discriminate|].
  destruct (str_eqb_spec k' k) as [->|Hk].
  - intros [= ->]. now left.
  - intros H. right. now apply IH.
Qed.

Lemma In_get m k v : NoDup (keys m) -> In (k, v) m -> get m k = Some v.
Proof.
  induction m as [|[k' v'] m IH]; simpl; [tauto|].
  intros Hnd [Heq|Hin].
  - injection Heq as -> ->. now rewrite str_eqb_refl.
  - inversion Hnd as [|? ? Hnotin Hnd']; subst.
    destruct (str_eqb_spec k' k) as [->|Hk].
    + exfalso. apply Hnotin. change k with (fst (k, v)).
      now apply in_map.
    + now apply IH.
Qed.

Lemma keys_set m k v :
  keys (set m k v) = if has m k then keys m else keys m ++ [k].
Proof.
  unfold has. induction m as [|[k' v'] m IH]; simpl; [reflexivity|].
  destruct (str_eqb_spec k' k) as [->|Hk]; simpl; [reflexivity|].
  rewrite IH. now destruct (get m k).
Qed.

Lemma NoDup_keys_set m k v : NoDup (keys m) -> NoDup (keys (set m k v)).
Proof.
  intros Hnd. rewrite keys_set. destruct (has m k) eqn:Hh; [exact Hnd|].
  apply NoDup_app; [exact Hnd | repeat constructor; simpl; tauto |].
  intros x Hx [<-|[]]. apply has_In_keys in Hx. congruence.
Qed.

Lemma has_get m k : has m k = true <-> exists v, get m k = Some v.
Proof.
  unfold has. destruct (get m k); split; eauto; try discriminate.
  intros [v [=]].
Qed.
End MapFacts.

Lemma Set_has_In (s : JSSet) (x : jsstring) : Set_has s x = true <-> In x s.
Proof.
  unfold Set_has. rewrite existsb_exists. split.
  - intros [y [Hy Heq]]. destruct (str_eqb_spec x y); congruence.
  - intros H. exists x. split; [exact H | apply str_eqb_refl].
Qed.

Lemma Set_has_false (s : JSSet) (x : jsstring) :
  Set_has s x = false <-> ~ In x s.
Proof.
  rewrite <- Set_has_In. destruct (Set_has s x); intuition congruence.
Qed.

Lemma Set_add_In (s : JSSet) (x y : jsstring) :
  In y (Set_add s x) <-> y = x \/ In y s.
Proof.
  unfold Set_add. destruct (Set_has s x) eqn:Hh.
  - apply Set_has_In in Hh. intuition congruence.
  - rewrite in_app_iff. simpl. intuition congruence.
Qed.

Lemma Set_add_NoDup (s : JSSet) (x : jsstring) :
  NoDup s -> NoDup (Set_add s x).
Proof.
  intros Hnd. unfold Set_add. destruct (Set_has s x) eqn:Hh; [exact Hnd|].
  apply Set_has_false in Hh.
  apply NoDup_app; [exact Hnd | repeat constructor; simpl; tauto |].
  intros y Hy [<-|[]]. contradiction.
Qed.

(** ** The order on strings *)

Lemma str_ltb_irrefl (a : jsstring) : str_ltb a a = false.
Proof.
  induction a as [|x a IH]; simpl; [reflexivity|].
  rewrite N.ltb_irrefl, N.eqb_refl. exact IH.
Qed.

Lemma str_ltb_cons (x y : N) (a b : jsstring) :
  str_ltb (x :: a) (y :: b) = true <->
  (x < y)%N \/ (x = y /\ str_ltb a b = true).
Proof.
  simpl. rewrite orb_true_iff, andb_true_iff, N.ltb_lt, N.eqb_eq. tauto.
Qed.

Lemma str_ltb_trans (a b c : jsstring) :
  str_ltb a b = true -> str_ltb b c = true -> str_ltb a c = true.
Proof.
  revert b c. induction a as [|x a IH]; intros [|y b] [|z c]; simpl;
    try congruence.
  change (str_ltb (x :: a) (y :: b) = true ->
          str_ltb (y :: b) (z :: c) = true ->
          str_ltb (x :: a) (z :: c) = true).
  rewrite !str_ltb_cons.
  intros [Hxy|[-> Hab]] [Hyz|[-> Hbc]]; try (left; lia).
  right. split; [reflexivity | eauto].
Qed.

Lemma str_ltb_total (a b : jsstring) :
  str_ltb a b = false -> str_ltb b a = false -> a = b.
Proof.
  revert b. induction a as [|x a IH]; intros [|y b]; simpl; try congruence.
  rewrite !orb_false_iff, !andb_false_iff, !N.ltb_ge, !N.eqb_neq.
  intros [H1 H2] [H3 H4].
  assert (x = y) by lia. subst y. f_equal. apply IH; tauto.
Qed.

Lemma str_ltb_asym (a b : jsstring) :
  str_ltb a b = true -> str_ltb b a = false.
Proof.
  intros H. destruct (str_ltb b a) eqn:E; [|reflexivity].
  pose proof (str_ltb_trans _ _ _ H E) as Hc.
  rewrite str_ltb_irrefl in Hc. discriminate.
Qed.

(** ** Sorting *)

Section SortFacts.
Context {A : Type}.
Variable after : A -> A -> bool.

Lemma sortInsert_perm (x : A) (l : list A) :
  Permutation (x :: l) (sortInsert after x l).
Proof.
  induction l as [|y l IH]; simpl; [reflexivity|].
  destruct (after x y); [|reflexivity].
  rewrite perm_swap. now constructor.
Qed.

Lemma Array_sort_perm (l : list A) : Permutation l (Array_sort after l).
Proof.
  induction l as [|x l IH]; simpl; [constructor|].
  rewrite <- sortInsert_perm. now constructor.
Qed.

Variable good : A -> Prop.
Hypothesis after_asym :
  forall x y, good x -> good y -> after x y = true -> after y x = false.
Hypothesis notAfter_trans :
  forall x y z, good x -> good y -> good z ->
    after x y = false -> after y z = false -> after x z = false.

Lemma sortInsert_sorted (x : A) (l : list A) :
  good x -> Forall good l -> StronglySorted (notAfter after) l ->
  StronglySorted (notAfter after) (sortInsert after x l).
Proof.
  intros Hx Hl Hs. induction Hs as [|y l Hs IH Hy]; simpl.
  - repeat constructor.
  - inversion Hl as [|? ? Hgy Hgl]; subst.
    destruct (after x y) eqn:E.
    + constructor; [now apply IH|].
      apply (Permutation_Forall (sortInsert_perm x l)).
      constructor; [|exact Hy].
      now apply after_asym.
    + constructor; [now constructor|].
      constructor; [exact E|].
      rewrite Forall_forall in *. intros z Hz.
      apply (notAfter_trans _ _ _ Hx Hgy (Hgl z Hz) E (Hy z Hz)).
Qed.

Lemma Array_sort_sorted (l : list A) :
  Forall good l -> StronglySorted (notAfter after) (Array_sort after l).
Proof.
  induction l as [|x l IH]; simpl; intros Hl; [constructor|].
  inversion Hl; subst.
  apply sortInsert_sorted; auto.
  apply (Permutation_Forall (Array_sort_perm l)). assumption.
Qed.
End SortFacts.

(** ** extractNodes *)

Lemma extractLine_In (nodes : JSSet) (raw x : jsstring) :
  In x (extractLine nodes raw) <-> In x nodes \/ nodeOfLine raw x.
Proof.
  unfold extractLine, nodeOfLine.
  destruct (skipLine (trim raw)); [intuition congruence|].
  destruct (Nat.leb_spec 2 (length (splitWs (trim raw)))) as [Hle|Hlt].
  - rewrite !Set_add_In. intuition.
  - intuition lia.
Qed.

Lemma extractLine_NoDup (nodes : JSSet) (raw : jsstring) :
  NoDup nodes -> NoDup (extractLine nodes raw).
Proof.
  intros H. unfold extractLine.
  destruct (skipLine (trim raw)); [exact H|].
  destruct (2 <=? length (splitWs (trim raw))); [|exact H].
  now repeat apply Set_add_NoDup.
Qed.

Lemma extractLines_In (lines : list jsstring) (nodes : JSSet) (x : jsstring) :
  In x (fold_left extractLine lines nodes) <->
  In x nodes \/ exists raw, In raw lines /\ nodeOfLine raw x.
Proof.
  revert nodes. induction lines as [|raw lines IH]; intros nodes; simpl.
  - split; [auto | intros [H|[raw [[] _]]]; exact H].
  - rewrite IH, extractLine_In. split.
    + intros [[H|H]|[r [Hr Hx]]]; eauto 6.
    + intros [H|[r [[<-|Hr] Hx]]]; eauto 6.
Qed.

Lemma extractLines_NoDup (lines : list jsstring) (nodes : JSSet) :
  NoDup nodes -> NoDup (fold_left extractLine lines nodes).
Proof.
  revert nodes. induction lines as [|raw lines IH]; intros nodes H; simpl.
  - exact H.
  - apply IH. now apply extractLine_NoDup.
Qed.

Lemma StronglySorted_strict {A : Type} (R S : A -> A -> Prop) (l : list A) :
  (forall x y, R x y -> x <> y -> S x y) ->
  StronglySorted R l -> NoDup l -> StronglySorted S l.
Proof.
  intros HRS Hs. induction Hs as [|x l Hs IH Hx]; intros Hnd.
  - constructor.
  - inversion Hnd as [|? ? Hnotin Hnd']; subst.
    constructor; [now apply IH|].
    rewrite Forall_forall in *. intros y Hy.
    apply HRS; [now apply Hx|]. intros ->. contradiction.
Qed.

(** C7: [extractNodes] is total (it never consults [Number], so a malformed
    weight cannot make it fail) and returns the strictly ascending (hence
    duplicate-free) list, in the code-unit order of strings, of exactly the
    identifiers that are field 1 or field 2 of a line that is neither empty
    nor a comment and has at least two fields. *)
Theorem extractNodes_sorted_distinct_nodes (text : jsstring) :
  StronglySorted (fun a b => str_ltb a b = true) (extractNodes text) /\
  NoDup (extractNodes text) /\
  forall x, In x (extractNodes text) <->
            exists raw, In raw (splitLines text) /\ nodeOfLine raw x.
Proof.
  unfold extractNodes.
  set (after := fun x y : jsstring => str_ltb y x).
  set (nodes := fold_left extractLine (splitLines text) []).
  assert (Hnd : NoDup nodes) by (apply extractLines_NoDup; constructor).
  assert (Hperm := Array_sort_perm after nodes).
  assert (Hnd' : NoDup (Array_sort after nodes))
    by (eapply Permutation_NoDup; eauto).
  split; [|split].
  - apply StronglySorted_strict with (R := notAfter after); [| |exact Hnd'].
    + unfold notAfter, after. intros x y Hxy Hne.
      destruct (str_ltb x y) eqn:E; [reflexivity|].
      elim Hne. now apply str_ltb_total.
    + apply Array_sort_sorted with (good := fun _ => True).
      * unfold after. intros x y _ _. apply str_ltb_asym.
      * unfold after. intros x y z _ _ _ Hyx Hzy.
        destruct (str_ltb z x) eqn:Hzx; [|reflexivity].
        destruct (str_ltb x y) eqn:Hxy.
        -- rewrite (str_ltb_trans _ _ _ Hzx Hxy) in Hzy. discriminate.
        -- rewrite (str_ltb_total _ _ Hxy Hyx) in Hzx. congruence.
      * rewrite Forall_forall. trivial.
  - exact Hnd'.
  - intros x. split.
    + intros Hx. apply (Permutation_in _ (Permutation_sym Hperm)) in Hx.
      apply extractLines_In in Hx. destruct Hx as [[]|Hx]. exact Hx.
    + intros Hx. apply (Permutation_in _ Hperm).
      apply extractLines_In. now right.
Qed.

(** ** The concrete numbers satisfy the laws *)

Lemma IntNumber_laws : @JSNumberLaws IntNumber.IntJSNumber.
Proof.
  constructor; unfold distance, validWeight; simpl.
  - split; reflexivity.
  - reflexivity.
  - reflexivity.
  - intros [| |x|]; simpl; auto using Z.ltb_irrefl.
  - intros [| |x|] [| |y|] [| |z|]; simpl; try congruence.
    rewrite !Z.ltb_lt. lia.
  - intros [| |x|] [| |y|]; simpl; intros [[? ?]|?] [[? ?]|?];
      try congruence.
    rewrite !Z.ltb_ge. intros. f_equal. lia.
  - intros [| |x|]; simpl; intros [[? ?]|?]; congruence.
  - intros [| |x|]; reflexivity.
  - intros [| |x|] [| |w|]; simpl; intros [[? Hx]|?] [? Hw];
      try congruence; auto.
    left. split; [reflexivity|]. rewrite Z.ltb_ge in *. lia.
  - intros [| |x|] [| |w|]; simpl; intros [[? Hx]|?] [? Hw];
      try congruence; auto.
    rewrite Z.ltb_ge in *. lia.
  - intros [| |x|] [| |y|] [| |w|]; simpl;
      intros [[? Hx]|?] [[? Hy]|?] [? Hw]; try congruence; auto.
    rewrite !Z.ltb_ge in *. lia.
  - intros [| |x|] [| |y|]; simpl; intros [? Hx] [? Hy]; try congruence.
    apply eq_true_iff_eq. rewrite !Z.ltb_lt. lia.
Qed.

(** ** parseEdges: errors *)

Section ParseErrors.
Context {JN : JSNumber} {JL : JSNumberLaws}.

Lemma invalidWeight_spec (w : number) :
  invalidWeight w = false <-> validWeight w.
Proof.
  unfold invalidWeight, validWeight.
  rewrite orb_false_iff, negb_false_iff. tauto.
Qed.

Lemma invalidWeight_true (w : number) :
  invalidWeight w = true <-> ~ validWeight w.
Proof.
  rewrite <- invalidWeight_spec.
  destruct (invalidWeight w); intuition congruence.
Qed.

Lemma parseLine_cases (und : bool) (g : Graph) (raw : jsstring) :
  (~ offending raw /\ exists g', parseLine und g raw = Ok g') \/
  (offending raw /\
   exists msg, parseLine und g raw = Throw msg /\ carries raw msg).
Proof.
  unfold parseLine, offending, carries, tooFewFields, badWeightField.
  destruct (skipLine (trim raw)) eqn:Hskip.
  { left. split; [intros [? _]; discriminate | eauto]. }
  destruct (Nat.ltb_spec (length (splitWs (trim raw))) 2) as [Hlt|Hge].
  { right. split; [auto|]. eexists. split; [reflexivity|]. now left. }
  unfold lineWeight.
  destruct (Nat.leb_spec 3 (length (splitWs (trim raw)))) as [H3|H3].
  - destruct (invalidWeight (Number (nth 2 (splitWs (trim raw)) [])))
      eqn:Hw.
    + apply invalidWeight_true in Hw. right. split; [auto|].
      eexists. split; [reflexivity|]. right. auto.
    + apply invalidWeight_spec in Hw. left. split; [|eauto].
      intros [_ [Hf|[_ Hb]]]; [lia | contradiction].
  - rewrite (proj2 (invalidWeight_spec one) one_valid).
    left. split; [|eauto]. intros [_ [Hf|[Hb _]]]; lia.
Qed.

Lemma parseLines_ok (und : bool) (lines : list jsstring) (g : Graph) :
  Forall (fun r => ~ offending r) lines ->
  exists g', parseLines und lines g = Ok g'.
Proof.
  revert g. induction lines as [|raw lines IH]; intros g Hall; simpl.
  - eauto.
  - inversion Hall as [|? ? Hraw Hrest]; subst.
    destruct (parseLine_cases und g raw) as [[_ [g' ->]]|[Hoff _]].
    + now apply IH.
    + contradiction.
Qed.

Lemma parseLines_throw (und : bool) (lines : list jsstring) (g : Graph)
  (msg : jsstring) :
  parseLines und lines g = Throw msg ->
  exists before raw after,
    lines = before ++ raw :: after /\
    Forall (fun r => ~ offending r) before /\
    offending raw /\ carries raw msg.
Proof.
  revert g. induction lines as [|raw lines IH]; intros g; simpl.
  - discriminate.
  - destruct (parseLine_cases und g raw)
      as [[Hok [g' ->]]|[Hoff [m [-> Hm]]]].
    + intros H. destruct (IH _ H) as (b & r & a & -> & Hb & Hr & Hc).
      exists (raw :: b), r, a.
      split; [reflexivity|]. split; [now constructor|]. now split.
    + intros [= <-]. exists [], raw, lines.
      split; [reflexivity|]. split; [constructor|]. now split.
Qed.

Lemma parseLines_offending (und : bool) (lines : list jsstring) (g : Graph)
  (raw : jsstring) :
  In raw lines -> offending raw ->
  exists msg, parseLines und lines g = Throw msg.
Proof.
  revert g. induction lines as [|r lines IH]; intros g; simpl; [tauto|].
  intros Hin Hoff.
  destruct (parseLine_cases und g r) as [[Hok [g' ->]]|[_ [m [-> _]]]].
  - destruct Hin as [->|Hin]; [contradiction|]. now apply IH.
  - eauto.
Qed.

(** C3: [parseEdges] throws exactly when some line that is neither empty
    nor a comment has fewer than two fields or a third field that is not
    read as a finite number that is not below zero.  The error is raised
    at the first such line; its message ends with that line's trimmed
    text, after the reason.  A graph is returned only when no line
    offends: an error leaves no partial graph. *)
Theorem parseEdges_throws_iff_offending_line (text : jsstring)
  (und : bool) :
  ((exists msg, parseEdges text und = Throw msg) <->
   (exists raw, In raw (splitLines text) /\ offending raw)) /\
  (forall msg, parseEdges text und = Throw msg ->
     exists before raw after,
       splitLines text = before ++ raw :: after /\
       Forall (fun r => ~ offending r) before /\
       offending raw /\ carries raw msg) /\
  (forall g, parseEdges text und = Ok g ->
     forall raw, In raw (splitLines text) -> ~ offending raw).
Proof.
  unfold parseEdges. split; [split|split].
  - intros [msg H]. apply parseLines_throw in H.
    destruct H as (b & r & a & Heq & _ & Hr & _).
    exists r. split; [|exact Hr]. rewrite Heq.
    apply in_or_app. right. now left.
  - intros [raw [Hin Hoff]]. eapply parseLines_offending; eauto.
  - intros msg. apply parseLines_throw.
  - intros g Hg raw Hin Hoff.
    destruct (parseLines_offending und (splitLines text) [] raw Hin Hoff)
      as [msg Hm].
    congruence.
Qed.
End ParseErrors.

(** ** parseEdges: the graph *)

Section ParseGraph.
Context {JN : JSNumber}.

Lemma get_ensure (g : Graph) (x u : jsstring) :
  get (ensure g x) u =
  if str_eqb x u && negb (has g x) then Some [] else get g u.
Proof.
  unfold ensure. destruct (has g x) eqn:Hh.
  - now rewrite andb_false_r.
  - rewrite andb_true_r. apply get_set.
Qed.

Lemma has_ensure (g : Graph) (x u : jsstring) :
  has (ensure g x) u = str_eqb x u || has g u.
Proof.
  unfold has at 1. rewrite get_ensure.
  destruct (str_eqb_spec x u) as [->|Hne]; simpl.
  - unfold has. destruct (get g u); reflexivity.
  - reflexivity.
Qed.

Lemma get_setEdge (g : Graph) (u v : jsstring) (w : number)
  (u' : jsstring) :
  get (setEdge g u v w) u' =
  match get g u with
  | Some adj => if str_eqb u u' then Some (set adj v w) else get g u'
  | None => get g u'
  end.
Proof.
  unfold setEdge. destruct (get g u) as [adj|]; [|reflexivity].
  apply get_set.
Qed.

Lemma has_setEdge (g : Graph) (u v : jsstring) (w : number)
  (x : jsstring) :
  has (setEdge g u v w) x = has g x.
Proof.
  unfold has at 1. rewrite get_setEdge. unfold has.
  destruct (get g u) as [adj|] eqn:Hu; [|reflexivity].
  destruct (str_eqb_spec u x) as [->|Hne]; [|reflexivity].
  now rewrite Hu.
Qed.

Lemma edgeWeight_ensure (g : Graph) (x a b : jsstring) :
  edgeWeight (ensure g x) a b = edgeWeight g a b.
Proof.
  unfold edgeWeight. rewrite get_ensure.
  destruct (str_eqb_spec x a) as [->|Hne]; simpl; [|reflexivity].
  unfold has. destruct (get g a); reflexivity.
Qed.

Lemma edgeWeight_setEdge (g : Graph) (u v : jsstring) (w : number)
  (a b : jsstring) :
  has g u = true ->
  edgeWeight (setEdge g u v w) a b =
  if str_eqb u a && str_eqb v b then Some w else edgeWeight g a b.
Proof.
  unfold edgeWeight, has. rewrite get_setEdge.
  destruct (get g u) as [adj|] eqn:Hu; [intros _|discriminate].
  destruct (str_eqb_spec u a) as [<-|Hne]; simpl; [|reflexivity].
  rewrite Hu. apply get_set.
Qed.

Lemma has_addEdge (und : bool) (g : Graph) (u v : jsstring) (w : number)
  (x : jsstring) :
  has (addEdge und g u v w) x = str_eqb u x || str_eqb v x || has g x.
Proof.
  unfold addEdge. destruct und; rewrite ?has_setEdge, !has_ensure;
    destruct (str_eqb u x), (str_eqb v x); reflexivity.
Qed.

Lemma edgeWeight_addEdge (und : bool) (g : Graph) (u v : jsstring)
  (w : number) (a b : jsstring) :
  edgeWeight (addEdge und g u v w) a b =
  if (str_eqb u a && str_eqb v b) || (und && str_eqb v a && str_eqb u b)
  then Some w else edgeWeight g a b.
Proof.
  unfold addEdge.
  assert (Hu : has (ensure (ensure g u) v) u = true)
    by (rewrite !has_ensure, str_eqb_refl; apply orb_true_r).
  assert (Hv : has (setEdge (ensure (ensure g u) v) u v w) v = true)
    by (rewrite has_setEdge, has_ensure, str_eqb_refl; reflexivity).
  destruct und; simpl.
  - rewrite (edgeWeight_setEdge _ _ _ _ _ _ Hv),
      (edgeWeight_setEdge _ _ _ _ _ _ Hu), !edgeWeight_ensure.
    destruct (str_eqb v a && str_eqb u b), (str_eqb u a && str_eqb v b);
      reflexivity.
  - rewrite (edgeWeight_setEdge _ _ _ _ _ _ Hu), !edgeWeight_ensure.
    now rewrite orb_false_r.
Qed.

Lemma parseLine_Ok (und : bool) (g g' : Graph) (raw : jsstring) :
  parseLine und g raw = Ok g' ->
  (skipLine (trim raw) = true /\ g' = g) \/
  (exists u v w, parsedEdge raw u v w /\ validWeight w /\
                 g' = addEdge und g u v w).
Proof.
  unfold parseLine, parsedEdge, edgeEnds, addEdge.
  destruct (skipLine (trim raw)) eqn:Hskip.
  { intros [= <-]. now left. }
  destruct (Nat.ltb_spec (length (splitWs (trim raw))) 2) as [Hlt|Hge];
    [discriminate|].
  destruct (invalidWeight (lineWeight (splitWs (trim raw)))) eqn:Hw;
    [discriminate|].
  intros [= <-]. right.
  exists (nth 0 (splitWs (trim raw)) []), (nth 1 (splitWs (trim raw)) []),
    (lineWeight (splitWs (trim raw))).
  unfold invalidWeight in Hw. apply orb_false_iff in Hw.
  destruct Hw as [Hf Hn]. apply negb_false_iff in Hf.
  repeat split; auto.
Qed.

Lemma parseLines_app (und : bool) (l1 l2 : list jsstring) (g g' : Graph) :
  parseLines und (l1 ++ l2) g = Ok g' ->
  exists g1, parseLines und l1 g = Ok g1 /\ parseLines und l2 g1 = Ok g'.
Proof.
  revert g. induction l1 as [|raw l1 IH]; intros g; simpl.
  - eauto.
  - destruct (parseLine und g raw); [apply IH | discriminate].
Qed.
End ParseGraph.

Section ParseGraphFacts.
Context {JN : JSNumber}.

Lemma edgeWeight_kept (und : bool) (lines : list jsstring) (g g' : Graph)
  (u v : jsstring) :
  parseLines und lines g = Ok g' ->
  (forall r, In r lines -> ~ joins r u v) ->
  edgeWeight g' u v = edgeWeight g u v.
Proof.
  revert g. induction lines as [|raw lines IH]; intros g; simpl.
  - now intros [= <-].
  - destruct (parseLine und g raw) as [g1|] eqn:Hline; [|discriminate].
    intros Hrest Hno. rewrite (IH g1 Hrest) by auto.
    apply parseLine_Ok in Hline.
    destruct Hline as [[_ ->]|(a & b & w & [Hends _] & _ & ->)];
      [reflexivity|].
    rewrite edgeWeight_addEdge.
    destruct (str_eqb_spec a u) as [->|Hau];
      destruct (str_eqb_spec b v) as [->|Hbv]; simpl.
    + elim (Hno raw (or_introl eq_refl)). now left.
    + destruct und; simpl; [|reflexivity].
      destruct (str_eqb_spec b u) as [->|Hbu];
        destruct (str_eqb_spec u v) as [->|Huv]; simpl;
        try reflexivity.
      congruence.
    + destruct und; simpl; [|reflexivity].
      destruct (str_eqb_spec v u) as [->|Hvu];
        destruct (str_eqb_spec a u) as [->|Hau']; simpl;
        try reflexivity; congruence.
    + destruct und; simpl; [|reflexivity].
      destruct (str_eqb_spec b u) as [->|Hbu];
        destruct (str_eqb_spec a v) as [->|Hav]; simpl;
        try reflexivity.
      elim (Hno raw (or_introl eq_refl)). now right.
Qed.

(** C5, as amended: with the undirected flag set, every parsed edge
    [(u, v, w)] that no later line of the text joins again (in either
    direction) is in the graph in both directions with weight [w]: the
    last line between two nodes decides. *)
Theorem parseEdges_undirected_last_edge_both_ways (text : jsstring)
  (g : Graph) (before after : list jsstring) (raw u v : jsstring)
  (w : number) :
  parseEdges text true = Ok g ->
  splitLines text = before ++ raw :: after ->
  parsedEdge raw u v w ->
  (forall r, In r after -> ~ joins r u v) ->
  edgeWeight g u v = Some w /\ edgeWeight g v u = Some w.
Proof.
  unfold parseEdges. intros Hg Hsplit Hedge Hlast. rewrite Hsplit in Hg.
  apply parseLines_app in Hg. destruct Hg as (g1 & _ & Hg). simpl in Hg.
  destruct (parseLine true g1 raw) as [g2|] eqn:Hline; [|discriminate].
  apply parseLine_Ok in Hline.
  destruct Hedge as [(Hskip & Hlen & -> & ->) ->].
  destruct Hline as [[Hs _]|(a & b & c & [(_ & _ & -> & ->) ->] & _ & ->)];
    [congruence|].
  split.
  - rewrite (edgeWeight_kept _ _ _ _ _ _ Hg Hlast), edgeWeight_addEdge.
    now rewrite !str_eqb_refl.
  - rewrite (edgeWeight_kept _ _ _ _ _ _ Hg), edgeWeight_addEdge.
    + rewrite !str_eqb_refl. simpl. now rewrite orb_true_r.
    + intros r Hr [H|H]; apply (Hlast r Hr); [now right | now left].
Qed.

Lemma wf_graph_empty : wf_graph [].
Proof. intros u adj. discriminate. Qed.

Lemma wf_graph_ensure (g : Graph) (x : jsstring) :
  wf_graph g -> wf_graph (ensure g x).
Proof.
  intros Hwf u adj. rewrite get_ensure.
  destruct (str_eqb x u && negb (has g x)).
  - intros [= <-]. split; [constructor | discriminate].
  - intros Hu. destruct (Hwf u adj Hu) as [Hnd Hadj].
    split; [exact Hnd|]. intros v w Hv.
    destruct (Hadj v w Hv) as [Hw Hh]. split; [exact Hw|].
    rewrite has_ensure, Hh. apply orb_true_r.
Qed.

Lemma wf_graph_setEdge (g : Graph) (u v : jsstring) (w : number) :
  wf_graph g -> validWeight w -> has g v = true ->
  wf_graph (setEdge g u v w).
Proof.
  intros Hwf Hw Hv u' adj'. rewrite get_setEdge.
  assert (Hold : get g u' = Some adj' ->
    NoDup (keys adj') /\
    forall v0 w0, get adj' v0 = Some w0 ->
      validWeight w0 /\ has (setEdge g u v w) v0 = true).
  { intros Hu. destruct (Hwf u' adj' Hu) as [Hnd Hadj].
    split; [exact Hnd|]. intros v0 w0 H0. rewrite has_setEdge. auto. }
  destruct (get g u) as [adj|] eqn:Hu; [|exact Hold].
  destruct (str_eqb_spec u u') as [<-|Hne]; [|exact Hold].
  intros [= <-]. destruct (Hwf u adj Hu) as [Hnd Hadj].
  split; [now apply NoDup_keys_set|].
  intros v0 w0. rewrite get_set, has_setEdge.
  destruct (str_eqb_spec v v0) as [<-|Hne].
  - intros [= <-]. auto.
  - apply Hadj.
Qed.

Lemma wf_graph_addEdge (und : bool) (g : Graph) (u v : jsstring)
  (w : number) :
  wf_graph g -> validWeight w -> wf_graph (addEdge und g u v w).
Proof.
  intros Hwf Hw. unfold addEdge.
  assert (H1 : wf_graph (setEdge (ensure (ensure g u) v) u v w)).
  { apply wf_graph_setEdge; [now repeat apply wf_graph_ensure | exact Hw |].
    rewrite has_ensure, str_eqb_refl. reflexivity. }
  destruct und; [|exact H1].
  apply wf_graph_setEdge; [exact H1 | exact Hw |].
  rewrite has_setEdge, !has_ensure, str_eqb_refl. apply orb_true_r.
Qed.

Lemma wf_graph_parseLines (und : bool) (lines : list jsstring)
  (g g' : Graph) :
  wf_graph g -> parseLines und lines g = Ok g' -> wf_graph g'.
Proof.
  revert g. induction lines as [|raw lines IH]; intros g Hwf; simpl.
  - now intros [= <-].
  - destruct (parseLine und g raw) as [g1|] eqn:Hline; [|discriminate].
    apply IH. apply parseLine_Ok in Hline.
    destruct Hline as [[_ ->]|(a & b & w & _ & Hw & ->)]; [exact Hwf|].
    now apply wf_graph_addEdge.
Qed.

Lemma wf_graph_parseEdges (text : jsstring) (und : bool) (g : Graph) :
  parseEdges text und = Ok g -> wf_graph g.
Proof. apply wf_graph_parseLines, wf_graph_empty. Qed.
Lemma NoDup_keys_ensure (g : Graph) (x : jsstring) :
  NoDup (keys g) -> NoDup (keys (ensure g x)).
Proof.
  intros H. unfold ensure. destruct (has g x); [exact H|].
  now apply NoDup_keys_set.
Qed.

Lemma NoDup_keys_setEdge (g : Graph) (u v : jsstring) (w : number) :
  NoDup (keys g) -> NoDup (keys (setEdge g u v w)).
Proof.
  intros H. unfold setEdge. destruct (get g u); [|exact H].
  now apply NoDup_keys_set.
Qed.

Lemma NoDup_keys_parseLines (und : bool) (lines : list jsstring)
  (g g' : Graph) :
  NoDup (keys g) -> parseLines und lines g = Ok g' -> NoDup (keys g').
Proof.
  revert g. induction lines as [|raw lines IH]; intros g Hnd; simpl.
  - now intros [= <-].
  - destruct (parseLine und g raw) as [g1|] eqn:Hline; [|discriminate].
    apply IH. apply parseLine_Ok in Hline.
    destruct Hline as [[_ ->]|(a & b & w & _ & _ & ->)]; [exact Hnd|].
    unfold addEdge.
    assert (H1 : NoDup (keys (setEdge (ensure (ensure g a) b) a b w)))
      by now apply NoDup_keys_setEdge, NoDup_keys_ensure, NoDup_keys_ensure.
    destruct und; [now apply NoDup_keys_setEdge | exact H1].
Qed.

(** The keys of a graph built by [parseEdges] are its nodes, each once. *)
Lemma NoDup_keys_parseEdges (text : jsstring) (und : bool) (g : Graph) :
  parseEdges text und = Ok g -> NoDup (keys g).
Proof. apply NoDup_keys_parseLines. constructor. Qed.
End ParseGraphFacts.

Section DefaultWeight.
Context {JN : JSNumber} {JL : JSNumberLaws}.

Lemma parseLine_default_weight (und : bool) (g : Graph)
  (raw raw' u v f : jsstring) :
  skipLine (trim raw) = false -> skipLine (trim raw') = false ->
  splitWs (trim raw) = [u; v] -> splitWs (trim raw') = [u; v; f] ->
  Number f = one ->
  parseLine und g raw = parseLine und g raw'.
Proof.
  intros Hs Hs' Hp Hp' Hf. unfold parseLine.
  rewrite Hs, Hs', Hp, Hp'. unfold lineWeight. simpl. rewrite Hf.
  now rewrite (proj2 (invalidWeight_spec one) one_valid).
Qed.

Lemma parseLine_two_fields (und : bool) (g : Graph) (raw u v : jsstring) :
  skipLine (trim raw) = false -> splitWs (trim raw) = [u; v] ->
  parseLine und g raw = Ok (addEdge und g u v one).
Proof.
  intros Hs Hp. unfold parseLine. rewrite Hs, Hp. unfold lineWeight. simpl.
  now rewrite (proj2 (invalidWeight_spec one) one_valid).
Qed.

Lemma parseLines_same_with_explicit_one (und : bool)
  (before after : list jsstring) (raw raw' u v f : jsstring) (g : Graph) :
  skipLine (trim raw) = false -> skipLine (trim raw') = false ->
  splitWs (trim raw) = [u; v] -> splitWs (trim raw') = [u; v; f] ->
  Number f = one ->
  parseLines und (before ++ raw :: after) g
  = parseLines und (before ++ raw' :: after) g.
Proof.
  intros Hs Hs' Hp Hp' Hf. revert g.
  induction before as [|r before IH]; intros g; simpl.
  - now rewrite
      (parseLine_default_weight und g raw raw' u v f Hs Hs' Hp Hp' Hf).
  - destruct (parseLine und g r); [apply IH | reflexivity].
Qed.

(** C6: a line with exactly two fields is the edge of weight 1 between its
    fields: the body of the loop adds that edge, the graph returned holds
    the weight 1 for it (in both directions when undirected) unless a later
    line joins the two nodes again, and the text with the same line carrying
    a third field that [Number] reads as 1 is parsed to the same result, the
    same graph (or the same error of another line). *)
Theorem parseEdges_default_weight_is_one (und : bool)
  (text text' : jsstring) (before after : list jsstring)
  (raw raw' u v f : jsstring) :
  skipLine (trim raw) = false -> skipLine (trim raw') = false ->
  splitWs (trim raw) = [u; v] -> splitWs (trim raw') = [u; v; f] ->
  Number f = one ->
  splitLines text = before ++ raw :: after ->
  splitLines text' = before ++ raw' :: after ->
  parseEdges text und = parseEdges text' und /\
  (forall g0, parseLine und g0 raw = Ok (addEdge und g0 u v one) /\
              parseLine und g0 raw' = Ok (addEdge und g0 u v one)) /\
  (forall g, parseEdges text und = Ok g ->
     (forall r, In r after -> ~ joins r u v) ->
     edgeWeight g u v = Some one /\
     (und = true -> edgeWeight g v u = Some one)).
Proof.
  intros Hs Hs' Hp Hp' Hf Ht Ht'.
  assert (Hline : forall g0,
            parseLine und g0 raw = Ok (addEdge und g0 u v one))
    by (intros g0; now apply parseLine_two_fields).
  split; [|split].
  - unfold parseEdges. rewrite Ht, Ht'.
    now apply (parseLines_same_with_explicit_one und before after raw raw'
                 u v f).
  - intros g0. split; [apply Hline|].
    rewrite <- (parseLine_default_weight und g0 raw raw' u v f Hs Hs' Hp
                  Hp' Hf).
    apply Hline.
  - unfold parseEdges. rewrite Ht. intros g Hg Hlast.
    apply parseLines_app in Hg. destruct Hg as (g1 & _ & Hg).
    simpl in Hg. rewrite (Hline g1) in Hg.
    split.
    + rewrite (edgeWeight_kept und after _ g u v Hg Hlast).
      rewrite edgeWeight_addEdge. now rewrite !str_eqb_refl.
    + intros ->.
      rewrite (edgeWeight_kept true after _ g v u Hg).
      * rewrite edgeWeight_addEdge, !str_eqb_refl. simpl.
        now rewrite orb_true_r.
      * intros r Hr [H|H]; apply (Hlast r Hr); [now right | now left].
Qed.
End DefaultWeight.

(** ** The order on distances *)

Section Order.
Context {JN : JSNumber} {JL : JSNumberLaws}.

Lemma distance_zero : distance zero.
Proof. left. split; [apply zero_finite | apply ltb_irrefl]. Qed.

Lemma distance_Infinity : distance Infinity.
Proof. now right. Qed.

Lemma distance_valid (x : number) : validWeight x -> distance x.
Proof. now left. Qed.

Lemma distance_finite (x : number) :
  distance x -> isFinite x = true -> validWeight x.
Proof.
  intros [H| ->] Hf; [exact H|]. rewrite Infinity_not_finite in Hf.
  discriminate.
Qed.

Lemma distance_not_finite (x : number) :
  distance x -> isFinite x = false -> x = Infinity.
Proof. intros [[Hf _]|H] Hn; [congruence | exact H]. Qed.

Lemma leq_refl (x : number) : leq x x.
Proof. apply ltb_irrefl. Qed.

Lemma ltb_asym (x y : number) : ltb x y = true -> ltb y x = false.
Proof.
  intros H. destruct (ltb y x) eqn:E; [|reflexivity].
  pose proof (ltb_trans _ _ _ H E) as Hc. rewrite ltb_irrefl in Hc.
  discriminate.
Qed.

Lemma lt_leq_trans (x y z : number) :
  distance x -> distance y -> distance z ->
  ltb x y = true -> leq y z -> ltb x z = true.
Proof.
  unfold leq. intros Hx Hy Hz Hxy Hyz.
  destruct (ltb y z) eqn:E.
  - eapply ltb_trans; eauto.
  - now rewrite <- (ltb_total y z Hy Hz E Hyz).
Qed.

Lemma leq_lt_trans (x y z : number) :
  distance x -> distance y -> distance z ->
  leq x y -> ltb y z = true -> ltb x z = true.
Proof.
  unfold leq. intros Hx Hy Hz Hxy Hyz.
  destruct (ltb x y) eqn:E.
  - eapply ltb_trans; eauto.
  - now rewrite (ltb_total x y Hx Hy E Hxy).
Qed.

Lemma leq_trans (x y z : number) :
  distance x -> distance y -> distance z ->
  leq x y -> leq y z -> leq x z.
Proof.
  intros Hx Hy Hz Hxy Hyz. unfold leq.
  destruct (ltb z x) eqn:E; [|reflexivity].
  pose proof (lt_leq_trans z x y Hz Hx Hy E Hxy) as Hc.
  unfold leq in Hyz. congruence.
Qed.

Lemma lt_leq (x y : number) : ltb x y = true -> leq x y.
Proof. apply ltb_asym. Qed.

Lemma leq_antisym (x y : number) :
  distance x -> distance y -> leq x y -> leq y x -> x = y.
Proof. unfold leq. intros Hx Hy Hxy Hyx. now apply ltb_total. Qed.

Lemma leq_zero (x : number) : distance x -> leq zero x.
Proof. intros [[_ H]| ->]; [exact H | apply Infinity_max]. Qed.

Lemma leq_Infinity (x : number) : leq x Infinity.
Proof. apply Infinity_max. Qed.

Lemma lt_finite (x y : number) :
  distance x -> ltb x y = true -> isFinite x = true.
Proof.
  intros Hx Hlt. destruct (isFinite x) eqn:E; [reflexivity|].
  rewrite (distance_not_finite x Hx E), Infinity_max in Hlt. discriminate.
Qed.

Lemma leq_finite (x y : number) :
  distance x -> distance y -> leq x y -> isFinite y = true ->
  isFinite x = true.
Proof.
  intros Hx Hy Hxy Hf. destruct (isFinite x) eqn:E; [reflexivity|].
  rewrite (distance_not_finite x Hx E) in Hxy. unfold leq in Hxy.
  rewrite (ltb_Infinity y Hy) in Hxy. congruence.
Qed.

Lemma leq_add (x w : number) :
  distance x -> validWeight w -> leq x (add x w).
Proof. apply add_le. Qed.

Lemma leq_add_mono (x y w : number) :
  distance x -> distance y -> validWeight w ->
  leq x y -> leq (add x w) (add y w).
Proof. intros Hx Hy Hw Hxy. now apply add_mono. Qed.
End Order.

(** ** dijkstra: the queue *)

Section Queue.
Context {JN : JSNumber} {JL : JSNumberLaws}.

Lemma pop_spec (q : list (number * jsstring)) (x : number * jsstring)
  (rest : list (number * jsstring)) :
  (forall d v, In (d, v) q -> validWeight d) ->
  pop q = Some (x, rest) ->
  Permutation q (x :: rest) /\
  forall y, In y rest -> leq (fst x) (fst y).
Proof.
  intros Hq. unfold pop.
  pose proof (Array_sort_perm pqAfter q) as Hperm.
  assert (Hgood : Forall (fun e => validWeight (fst e)) q).
  { rewrite Forall_forall. intros [d v] Hin. exact (Hq d v Hin). }
  pose proof (Array_sort_sorted pqAfter (fun e => validWeight (fst e)))
    as Hsorted.
  assert (Hs : StronglySorted (notAfter pqAfter) (Array_sort pqAfter q)).
  { apply Hsorted; [| |exact Hgood]; unfold pqAfter.
    - intros a b Ha Hb. rewrite !sub_pos by assumption. apply ltb_asym.
    - intros a b c Ha Hb Hc. rewrite !sub_pos by assumption.
      intros Hab Hbc.
      apply (leq_trans (fst a) (fst b) (fst c)); auto using distance_valid. }
  assert (Hgood' : Forall (fun e => validWeight (fst e))
                     (Array_sort pqAfter q))
    by (eapply Permutation_Forall; eauto).
  destruct (Array_sort pqAfter q) as [|x0 rest0]; [discriminate|].
  intros [= <- <-]. split; [exact Hperm|].
  inversion Hs as [|? ? _ Hall]; subst.
  inversion Hgood' as [|? ? Hx0 Hrest0]; subst.
  rewrite Forall_forall in Hall, Hrest0.
  intros y Hy. specialize (Hall y Hy). unfold notAfter, pqAfter in Hall.
  rewrite sub_pos in Hall by auto. exact Hall.
Qed.
End Queue.

Section QueueShape.
Context {JN : JSNumber}.

Lemma pop_nonempty (q : list (number * jsstring)) :
  q <> [] -> exists x rest, pop q = Some (x, rest) /\ S (length rest) = length q.
Proof.
  intros Hq. unfold pop.
  pose proof (Array_sort_perm pqAfter q) as Hperm.
  destruct (Array_sort pqAfter q) as [|x rest] eqn:E.
  - apply Permutation_sym, Permutation_nil in Hperm. contradiction.
  - exists x, rest. split; [reflexivity|].
    apply Permutation_length in Hperm. simpl in Hperm. auto.
Qed.

Lemma distOf_set (d : Map number) (v x : jsstring) (a : number) :
  distOf (set d v a) x = if str_eqb v x then a else distOf d x.
Proof. unfold distOf. rewrite get_set. now destruct (str_eqb v x). Qed.

Lemma prevOf_set (p : Map (option jsstring)) (v x : jsstring)
  (a : option jsstring) :
  prevOf (set p v a) x = if str_eqb v x then a else prevOf p x.
Proof. unfold prevOf. rewrite get_set. now destruct (str_eqb v x). Qed.

Lemma app_last_split {A : Type} (l l1 l2 : list A) (u v : A) :
  l ++ [u] = l1 ++ v :: l2 ->
  (l2 = [] /\ l = l1 /\ v = u) \/
  (exists l2', l2 = l2' ++ [u] /\ l = l1 ++ v :: l2').
Proof.
  destruct l2 as [|y l2] using rev_ind.
  - intros H. apply app_inj_tail in H. left. intuition.
  - intros H. clear IHl2.
    change (l ++ [u] = l1 ++ (v :: l2) ++ [y]) in H.
    rewrite app_assoc in H. apply app_inj_tail in H.
    destruct H as [-> ->]. right. eauto.
Qed.
End QueueShape.

(** ** dijkstra: the invariant *)

Section Invariant.
Context {JN : JSNumber} {JL : JSNumberLaws}.

Lemma wf_edge (g : Graph) (u v : jsstring) (w : number) :
  wf_graph g -> edgeWeight g u v = Some w ->
  validWeight w /\ has g v = true.
Proof.
  intros Hwf. unfold edgeWeight.
  destruct (get g u) as [adj|] eqn:Hu; [|discriminate].
  apply (proj2 (Hwf u adj Hu)).
Qed.

Lemma relax_keeps_Mid (g : Graph) (s : jsstring) (st : DState)
  (u v : jsstring) (w : number) (todo : list (jsstring * number)) :
  wf_graph g ->
  Mid g s st u ((v, w) :: todo) ->
  Mid g s (relax (distOf (dist st) u) u st (v, w)) u todo /\
  distOf (dist (relax (distOf (dist st) u) u st (v, w))) u =
  distOf (dist st) u.
Proof.
  intros Hwf (HC & Hu & Htop & Hedges & Hrel).
  assert (Hvw : edgeWeight g u v = Some w) by (apply Hedges; now left).
  destruct (wf_edge g u v w Hwf Hvw) as [Hw Hhv].
  pose proof (inv_dist g s st HC) as Hdist.
  set (du := distOf (dist st) u) in *.
  assert (Hdu : distance du) by apply Hdist.
  unfold relax, push. set (alt := add du w).
  assert (Halt : distance alt) by (apply add_distance; auto).
  assert (Hle : leq du alt) by (apply leq_add; auto).
  destruct (ltb alt (distOf (dist st) v)) eqn:Hlt.
  2: { split; [|reflexivity].
       split; [exact HC|]. split; [exact Hu|]. split; [exact Htop|].
       split; [intros; apply Hedges; now right|].
       intros u' v' w' Hu' He.
       destruct (Hrel u' v' w' Hu' He) as [[-> [Heq|Hin]]|Hr];
         [|left; auto|right; auto].
       injection Heq as <- <-. right. exact Hlt. }
  assert (Hfin : isFinite alt = true) by (eapply lt_finite; eauto).
  assert (Hvalid : validWeight alt) by (apply distance_finite; auto).
  assert (Hnv : ~ In v (visited st)).
  { intros Hin. pose proof (Htop v Hin) as H1.
    pose proof (leq_trans _ _ _ (Hdist v) Hdu Halt H1 Hle) as H2.
    unfold leq in H2. congruence. }
  assert (Hvu : v <> u) by (intros ->; contradiction).
  assert (Hvs : v <> s).
  { intros ->. rewrite (proj1 (inv_source g s st HC)) in Hlt.
    pose proof (leq_zero alt Halt) as H0. unfold leq in H0. congruence. }
  assert (HDvis : forall x, In x (visited st) ->
            distOf (set (dist st) v alt) x = distOf (dist st) x).
  { intros x Hx. rewrite distOf_set.
    destruct (str_eqb_spec v x) as [->|_]; [contradiction | reflexivity]. }
  assert (HDother : forall x, x <> v ->
            distOf (set (dist st) v alt) x = distOf (dist st) x).
  { intros x Hx. rewrite distOf_set. rewrite str_eqb_neq; congruence. }
  assert (HDv : distOf (set (dist st) v alt) v = alt).
  { rewrite distOf_set, str_eqb_refl. reflexivity. }
  assert (HDle : forall x, leq (distOf (set (dist st) v alt) x)
                           (distOf (dist st) x)).
  { intros x. rewrite distOf_set.
    destruct (str_eqb_spec v x) as [<-|_]; [|apply leq_refl].
    now apply lt_leq. }
  assert (HDdist : forall x, distance (distOf (set (dist st) v alt) x)).
  { intros x. rewrite distOf_set. destruct (str_eqb v x); auto. }
  split; [|exact (HDvis u Hu)].
  split; [constructor; simpl| simpl].
  - exact HDdist.
  - rewrite (HDother s) by congruence. rewrite prevOf_set.
    rewrite str_eqb_neq by exact Hvs. apply (inv_source g s st HC).
  - intros d x Hin. apply in_app_or in Hin. destruct Hin as [Hin|[Heq|[]]].
    + destruct (inv_pq g s st HC d x Hin) as (Hd & Hl & Hh).
      split; [exact Hd|]. split; [|exact Hh].
      apply (leq_trans _ (distOf (dist st) x) _); auto using distance_valid.
    + injection Heq as <- <-. split; [exact Hvalid|].
      split; [|exact Hhv]. rewrite HDv. apply leq_refl.
  - intros x Hx Hf. apply in_or_app.
    destruct (str_eq_dec x v) as [->|Hne].
    + right. rewrite HDv. now left.
    + left. rewrite (HDother x Hne) in *.
      now apply (inv_frontier g s st HC).
  - intros u' d x Hu' Hin. rewrite (HDvis u' Hu').
    apply in_app_or in Hin. destruct Hin as [Hin|[Heq|[]]].
    + now apply (inv_settled g s st HC u' d x).
    + injection Heq as <- <-.
      apply (leq_trans _ du _); auto.
  - intros u' Hu'. rewrite (HDvis u' Hu').
    now apply (inv_visited g s st HC).
  - intros x u'. rewrite prevOf_set.
    destruct (str_eqb_spec v x) as [<-|Hne].
    + intros [= <-]. split; [exact Hu|]. exists w.
      split; [exact Hvw|]. rewrite HDv, (HDvis u Hu). auto.
    + intros Hp.
      destruct (inv_prev g s st HC x u' Hp) as (Hu' & w' & He & Hd & Hf).
      split; [exact Hu'|]. exists w'.
      rewrite (HDvis u' Hu'), (HDother x) by congruence. auto.
  - intros x Hf. rewrite prevOf_set.
    destruct (str_eqb_spec v x) as [<-|Hne]; [right; eauto|].
    rewrite (HDother x) in Hf by congruence.
    now apply (inv_reached g s st HC).
  - intros l1 x l2 u' Hvis. rewrite prevOf_set.
    destruct (str_eqb_spec v x) as [<-|Hne].
    + elim Hnv. rewrite Hvis. apply in_or_app. right. now left.
    + exact (inv_order g s st HC l1 x l2 u' Hvis).
  - apply (inv_nodup g s st HC).
  - intros k. rewrite keys_set_In, (inv_keys_dist g s st HC k).
    split; [intros [->|H]; [now apply has_In_keys | exact H] | auto].
  - intros k. rewrite keys_set_In, (inv_keys_prev g s st HC k).
    split; [intros [->|H]; [now apply has_In_keys | exact H] | auto].
  - split; [exact Hu|]. split.
    { intros u' Hu'. rewrite (HDvis u' Hu'), (HDvis u Hu). auto. }
    split; [intros; apply Hedges; now right|].
    intros u' x w' Hu' He. unfold relaxed. simpl.
    rewrite (HDvis u' Hu').
    destruct (wf_edge g u' x w' Hwf He) as [Hw' _].
    destruct (Hrel u' x w' Hu' He) as [[-> [Heq|Hin]]|Hr].
    + injection Heq as <- <-. right. rewrite HDv. apply leq_refl.
    + left. auto.
    + right. unfold relaxed in Hr.
      apply (leq_trans _ (distOf (dist st) x) _); auto.
      apply add_distance; auto.
Qed.

Lemma relax_all_keeps_Mid (g : Graph) (s : jsstring) (u : jsstring)
  (todo : list (jsstring * number)) (st : DState) (d : number) :
  wf_graph g ->
  d = distOf (dist st) u ->
  Mid g s st u todo ->
  Mid g s (fold_left (relax d u) todo st) u [].
Proof.
  intros Hwf. revert st.
  induction todo as [|[v w] todo IH]; intros st Hd HM.
  - exact HM.
  - simpl. subst d.
    destruct (relax_keeps_Mid g s st u v w todo Hwf HM) as [HM' Hd].
    apply IH; [symmetry; exact Hd | exact HM'].
Qed.

Lemma Mid_done (g : Graph) (s : jsstring) (st : DState) (u : jsstring) :
  Mid g s st u [] -> Inv g s st.
Proof.
  intros (HC & _ & _ & _ & Hrel). split; [exact HC|].
  intros u' v w Hu' He.
  destruct (Hrel u' v w Hu' He) as [[_ []]|Hr]. exact Hr.
Qed.

Lemma skip_keeps_Inv (g : Graph) (s : jsstring) (st : DState)
  (d : number) (u : jsstring) (rest : list (number * jsstring)) :
  Inv g s st ->
  pop (pq st) = Some ((d, u), rest) ->
  In u (visited st) ->
  Inv g s (mkDState (dist st) (prev st) (visited st) rest).
Proof.
  intros [HC Hrel] Hpop Hu.
  destruct (pop_spec (pq st) (d, u) rest) as [Hperm Hmin]; [|exact Hpop|].
  { intros d' v' Hin. apply (inv_pq g s st HC d' v' Hin). }
  assert (Hsub : forall e, In e rest -> In e (pq st)).
  { intros e He. apply (Permutation_in _ (Permutation_sym Hperm)).
    now right. }
  split; [constructor; simpl|exact Hrel]; try apply HC.
  - intros d' v' Hin. apply (inv_pq g s st HC). auto.
  - intros v Hv Hf.
    pose proof (inv_frontier g s st HC v Hv Hf) as Hin.
    apply (Permutation_in _ Hperm) in Hin. destruct Hin as [Heq|Hin].
    + injection Heq as _ <-. contradiction.
    + exact Hin.
  - intros u' d' v' Hu' Hin. apply (inv_settled g s st HC u' d' v'); auto.
Qed.

Lemma visit_gives_Mid (g : Graph) (s : jsstring) (st : DState)
  (d : number) (u : jsstring) (rest : list (number * jsstring)) :
  wf_graph g ->
  Inv g s st ->
  pop (pq st) = Some ((d, u), rest) ->
  ~ In u (visited st) ->
  d = distOf (dist st) u /\
  Mid g s (mkDState (dist st) (prev st) (Set_add (visited st) u) rest) u
    (adjOf g u).
Proof.
  intros Hwf [HC Hrel] Hpop Hu.
  destruct (pop_spec (pq st) (d, u) rest) as [Hperm Hmin]; [|exact Hpop|].
  { intros d' v' Hin. apply (inv_pq g s st HC d' v' Hin). }
  assert (Hsub : forall e, In e rest -> In e (pq st)).
  { intros e He. apply (Permutation_in _ (Permutation_sym Hperm)).
    now right. }
  assert (Hin : In (d, u) (pq st)).
  { apply (Permutation_in _ (Permutation_sym Hperm)). now left. }
  destruct (inv_pq g s st HC d u Hin) as (Hd & Hle & Hhas).
  pose proof (inv_dist g s st HC) as Hdist.
  assert (Hfin : isFinite (distOf (dist st) u) = true).
  { apply (leq_finite _ d); auto using distance_valid. apply Hd. }
  assert (Heq : d = distOf (dist st) u).
  { pose proof (inv_frontier g s st HC u Hu Hfin) as Hfr.
    apply (Permutation_in _ Hperm) in Hfr. destruct Hfr as [Hfr|Hfr].
    - now injection Hfr.
    - apply leq_antisym; auto using distance_valid.
      apply (Hmin _ Hfr). }
  split; [exact Heq|]. subst d.
  assert (Hvis : Set_add (visited st) u = visited st ++ [u]).
  { unfold Set_add. now rewrite (proj2 (Set_has_false _ _) Hu). }
  rewrite Hvis.
  split; [constructor; simpl|simpl]; try apply HC.
  - intros d' v' Hin'. apply (inv_pq g s st HC). auto.
  - intros v Hv Hf.
    pose proof (inv_frontier g s st HC v) as Hfr.
    rewrite in_app_iff in Hv. simpl in Hv.
    assert (Hin' : In (distOf (dist st) v, v) (pq st)) by tauto.
    apply (Permutation_in _ Hperm) in Hin'. destruct Hin' as [Heq|Hin'].
    + injection Heq as _ <-. tauto.
    + exact Hin'.
  - intros u' d' v' Hu' Hin'. apply in_app_or in Hu'.
    destruct Hu' as [Hu'|[<-|[]]].
    + apply (inv_settled g s st HC u' d' v'); auto.
    + apply (Hmin _ Hin').
  - intros u' Hu'. apply in_app_or in Hu'.
    destruct Hu' as [Hu'|[<-|[]]]; [now apply HC | auto].
  - intros v u' Hp.
    destruct (inv_prev g s st HC v u' Hp) as [Hu' Hw].
    split; [apply in_or_app; now left | exact Hw].
  - intros l1 v l2 u' Hsplit Hp.
    apply app_last_split in Hsplit.
    destruct Hsplit as [(_ & <- & _)|(l2' & _ & Hsplit)].
    + apply (inv_prev g s st HC v u' Hp).
    + exact (inv_order g s st HC l1 v l2' u' Hsplit Hp).
  - rewrite <- Hvis. apply Set_add_NoDup, HC.
  - split; [apply in_or_app; right; now left|]. split.
    { intros u' Hu'. apply in_app_or in Hu'.
      destruct Hu' as [Hu'|[<-|[]]]; [|apply leq_refl].
      apply (inv_settled g s st HC u' _ u); auto. }
    assert (Hadj : exists adj, get g u = Some adj)
      by now apply has_get.
    destruct Hadj as [adj Hadj]. unfold adjOf. rewrite Hadj.
    split.
    { intros v w Hvw. unfold edgeWeight. rewrite Hadj.
      apply In_get; [apply (Hwf u adj Hadj) | exact Hvw]. }
    intros u' v w Hu' He. apply in_app_or in Hu'.
    destruct Hu' as [Hu'|[<-|[]]].
    + right. now apply Hrel.
    + left. split; [reflexivity|]. unfold edgeWeight in He.
      rewrite Hadj in He. now apply get_In.
Qed.
End Invariant.

(** ** dijkstra: the main loop *)

Section MainLoop.
Context {JN : JSNumber} {JL : JSNumberLaws}.

Lemma step_keeps_Inv (g : Graph) (s : jsstring) (st : DState) :
  wf_graph g -> Inv g s st -> pq st <> [] -> Inv g s (step g st).
Proof.
  intros Hwf HI Hne. unfold step.
  destruct (pop_nonempty (pq st) Hne) as ([d u] & rest & Hpop & _).
  rewrite Hpop. destruct (Set_has (visited st) u) eqn:Hvis.
  - apply Set_has_In in Hvis. now apply (skip_keeps_Inv g s st d u rest).
  - apply Set_has_false in Hvis.
    destruct (visit_gives_Mid g s st d u rest Hwf HI Hpop Hvis)
      as [Hd HM].
    apply (Mid_done g s _ u).
    apply relax_all_keeps_Mid; [exact Hwf | exact Hd | exact HM].
Qed.

Lemma loop_keeps_Inv (fuel : nat) (g : Graph) (s : jsstring)
  (st st' : DState) :
  wf_graph g -> Inv g s st -> loop fuel g st = Some st' ->
  Inv g s st' /\ pq st' = [].
Proof.
  intros Hwf. revert st. induction fuel as [|fuel IH]; intros st HI; simpl.
  - destruct (pq st) eqn:Hpq; [|discriminate].
    intros [= <-]. auto.
  - destruct (pq st) eqn:Hpq.
    + intros [= <-]. auto.
    + apply IH. apply step_keeps_Inv; auto. rewrite Hpq. discriminate.
Qed.

Lemma initMaps_fold (l : list jsstring)
  (dp : Map number * Map (option jsstring)) :
  let dp' :=
    fold_left (fun dp u => (set (fst dp) u Infinity, set (snd dp) u None))
      l dp in
  (forall x, distOf (fst dp) x = Infinity ->
             distOf (fst dp') x = Infinity) /\
  (forall x, prevOf (snd dp) x = None -> prevOf (snd dp') x = None) /\
  (forall k, In k (keys (fst dp')) <-> In k (keys (fst dp)) \/ In k l) /\
  (forall k, In k (keys (snd dp')) <-> In k (keys (snd dp)) \/ In k l).
Proof.
  revert dp. induction l as [|u l IH]; intros dp; simpl.
  - repeat split; auto; intros [H|[]]; exact H.
  - destruct (IH (set (fst dp) u Infinity, set (snd dp) u None))
      as (H1 & H2 & H3 & H4). simpl in *.
    split; [|split; [|split]].
    + intros x Hx. apply H1. rewrite distOf_set, Hx.
      now destruct (str_eqb u x).
    + intros x Hx. apply H2. rewrite prevOf_set, Hx.
      now destruct (str_eqb u x).
    + intros k. rewrite H3, keys_set_In. intuition.
    + intros k. rewrite H4, keys_set_In. intuition.
Qed.

Lemma initMaps_spec (g : Graph) :
  (forall x, distOf (fst (initMaps g)) x = Infinity) /\
  (forall x, prevOf (snd (initMaps g)) x = None) /\
  (forall k, In k (keys (fst (initMaps g))) <-> In k (keys g)) /\
  (forall k, In k (keys (snd (initMaps g))) <-> In k (keys g)).
Proof.
  destruct (initMaps_fold (keys g) ([], [])) as (H1 & H2 & H3 & H4).
  unfold initMaps. split; [|split; [|split]].
  - intros x. now apply H1.
  - intros x. now apply H2.
  - intros k. rewrite H3. simpl. tauto.
  - intros k. rewrite H4. simpl. tauto.
Qed.

(** The state on entry to the main loop. *)
Lemma init_Inv (g : Graph) (s : jsstring) :
  has g s = true ->
  Inv g s (mkDState (set (fst (initMaps g)) s zero) (snd (initMaps g)) []
             [(zero, s)]).
Proof.
  intros Hs. destruct (initMaps_spec g) as (HD & HP & HKd & HKp).
  assert (Hd : forall x, distOf (set (fst (initMaps g)) s zero) x =
                         if str_eqb s x then zero else Infinity).
  { intros x. rewrite distOf_set, HD. reflexivity. }
  split; [constructor; simpl|simpl; tauto]; try tauto.
  - intros v. rewrite Hd.
    destruct (str_eqb s v); [apply distance_zero | apply distance_Infinity].
  - rewrite Hd, str_eqb_refl. auto.
  - intros d v [[= <- <-]|[]].
    split; [|split; [|exact Hs]].
    + apply distance_finite; [apply distance_zero | apply zero_finite].
    + rewrite Hd, str_eqb_refl. apply leq_refl.
  - intros v _. rewrite Hd.
    destruct (str_eqb_spec s v) as [<-|Hne]; [now left|].
    rewrite Infinity_not_finite. discriminate.
  - intros v u. rewrite HP. discriminate.
  - intros v. rewrite Hd.
    destruct (str_eqb_spec s v) as [<-|Hne]; [now left|].
    rewrite Infinity_not_finite. discriminate.
  - intros l1 v l2 u H. destruct l1; discriminate.
  - constructor.
  - intros k. rewrite keys_set_In, HKd.
    split; [intros [->|H]; [now apply has_In_keys | exact H] | auto].
Qed.
End MainLoop.

(** ** dijkstra: termination *)

Section Termination.
Context {JN : JSNumber}.

Lemma relax_shape (d : number) (u : jsstring) (st : DState)
  (e : jsstring * number) :
  visited (relax d u st e) = visited st /\
  length (pq (relax d u st e)) <= S (length (pq st)).
Proof.
  unfold relax, push. destruct e as [v w].
  destruct (ltb (add d w) (distOf (dist st) v)); simpl.
  - rewrite length_app. simpl. split; [reflexivity | lia].
  - split; [reflexivity | lia].
Qed.

Lemma relax_all_shape (d : number) (u : jsstring)
  (adj : list (jsstring * number)) (st : DState) :
  visited (fold_left (relax d u) adj st) = visited st /\
  length (pq (fold_left (relax d u) adj st)) <= length adj + length (pq st).
Proof.
  revert st. induction adj as [|e adj IH]; intros st; simpl.
  - split; [reflexivity | lia].
  - destruct (IH (relax d u st e)) as [Hv Hl].
    destruct (relax_shape d u st e) as [Hv' Hl'].
    split; [congruence | lia].
Qed.

Lemma unsettled_mono (g : Graph) (vis : JSSet) (u : jsstring) :
  unsettled g (vis ++ [u]) <= unsettled g vis.
Proof.
  unfold unsettled. induction g as [|[k adj] g IH]; simpl; [lia|].
  destruct (Set_has vis k) eqn:Hk.
  - assert (Set_has (vis ++ [u]) k = true) as ->; [|lia].
    apply Set_has_In. apply Set_has_In in Hk. apply in_or_app. now left.
  - destruct (Set_has (vis ++ [u]) k); lia.
Qed.

Lemma unsettled_visit (g : Graph) (vis : JSSet) (u : jsstring) :
  ~ In u vis ->
  unsettled g (vis ++ [u]) + length (adjOf g u) <= unsettled g vis.
Proof.
  intros Hu. unfold adjOf.
  induction g as [|[k adj] g IH]; simpl; [unfold unsettled; simpl; lia|].
  destruct (str_eqb_spec k u) as [->|Hne].
  - pose proof (unsettled_mono g vis u) as Hm.
    unfold unsettled in *. simpl.
    rewrite (proj2 (Set_has_false vis u) Hu).
    assert (Set_has (vis ++ [u]) u = true) as ->; [|lia].
    apply Set_has_In, in_or_app. right. now left.
  - unfold unsettled in *. simpl.
    destruct (Set_has vis k) eqn:Hk.
    + assert (Set_has (vis ++ [u]) k = true) as ->; [|lia].
      apply Set_has_In. apply Set_has_In in Hk. apply in_or_app. now left.
    + destruct (Set_has (vis ++ [u]) k); lia.
Qed.

Lemma step_potential (g : Graph) (st : DState) :
  pq st <> [] -> potential g (step g st) < potential g st.
Proof.
  intros Hne. unfold step, potential.
  destruct (pop_nonempty (pq st) Hne) as ([d u] & rest & Hpop & Hlen).
  rewrite Hpop. destruct (Set_has (visited st) u) eqn:Hvis; simpl.
  - lia.
  - apply Set_has_false in Hvis.
    destruct (relax_all_shape d u (adjOf g u)
                (mkDState (dist st) (prev st) (Set_add (visited st) u) rest))
      as [Hv Hl].
    rewrite Hv. simpl in *.
    assert (Hadd : Set_add (visited st) u = visited st ++ [u]).
    { unfold Set_add. now rewrite (proj2 (Set_has_false _ _) Hvis). }
    rewrite Hadd in *.
    pose proof (unsettled_visit g (visited st) u Hvis). lia.
Qed.

Lemma loop_terminates (g : Graph) (fuel : nat) (st : DState) :
  potential g st <= fuel -> exists st', loop fuel g st = Some st'.
Proof.
  revert st. induction fuel as [|fuel IH]; intros st Hpot; simpl.
  - destruct (pq st) eqn:Hpq; [eauto|].
    unfold potential in Hpot. rewrite Hpq in Hpot. simpl in Hpot. lia.
  - destruct (pq st) eqn:Hpq; [eauto|].
    apply IH.
    assert (Hne : pq st <> []) by (rewrite Hpq; discriminate).
    pose proof (step_potential g st Hne). lia.
Qed.

Lemma loop_fuel_mono (g : Graph) (fuel fuel' : nat) (st st' : DState) :
  loop fuel g st = Some st' -> fuel <= fuel' -> loop fuel' g st = Some st'.
Proof.
  revert fuel' st. induction fuel as [|fuel IH]; intros fuel' st; simpl.
  - destruct (pq st) eqn:Hpq; [|discriminate].
    intros H _. destruct fuel'; simpl; now rewrite Hpq.
  - destruct (pq st) eqn:Hpq.
    + intros H _. destruct fuel'; simpl; now rewrite Hpq.
    + intros H Hle. destruct fuel' as [|fuel']; [lia|]. simpl.
      rewrite Hpq. apply IH; [exact H | lia].
Qed.
End Termination.

(** ** dijkstra: the result *)

Section Result.
Context {JN : JSNumber} {JL : JSNumberLaws}.

Lemma dijkstra_unfold (fuel : nat) (g : Graph) (s : jsstring) :
  dijkstra fuel g s =
  if negb (has g s) then Some (Throw (msgSource s))
  else
    match loop fuel g
            (mkDState (set (fst (initMaps g)) s zero) (snd (initMaps g)) []
               [(zero, s)]) with
    | Some st => Some (Ok (dist st, prev st))
    | None => None
    end.
Proof. unfold dijkstra. now destruct (initMaps g). Qed.

Lemma dijkstra_Ok_Inv (fuel : nat) (g : Graph) (s : jsstring)
  (d : Map number) (p : Map (option jsstring)) :
  wf_graph g ->
  dijkstra fuel g s = Some (Ok (d, p)) ->
  has g s = true /\
  exists st, Inv g s st /\ pq st = [] /\ dist st = d /\ prev st = p.
Proof.
  intros Hwf. rewrite dijkstra_unfold.
  destruct (has g s) eqn:Hs; simpl; [|discriminate].
  destruct (loop fuel g _) as [st|] eqn:Hloop; [|discriminate].
  intros [= <- <-]. split; [reflexivity|]. exists st.
  destruct (loop_keeps_Inv fuel g s _ st Hwf (init_Inv g s Hs) Hloop).
  auto.
Qed.

Lemma dijkstra_returns (g : Graph) (s : jsstring) :
  has g s = true ->
  exists d p, forall fuel, fuelBound g <= fuel ->
    dijkstra fuel g s = Some (Ok (d, p)).
Proof.
  intros Hs.
  destruct (loop_terminates g (fuelBound g)
              (mkDState (set (fst (initMaps g)) s zero) (snd (initMaps g))
                 [] [(zero, s)])) as [st Hst].
  { unfold potential, fuelBound. simpl. lia. }
  exists (dist st), (prev st). intros fuel Hfuel.
  rewrite dijkstra_unfold, Hs. simpl.
  now rewrite (loop_fuel_mono g _ fuel _ st Hst Hfuel).
Qed.

Section Final.
Variables (g : Graph) (s : jsstring) (st : DState).
Hypothesis Hwf : wf_graph g.
Hypothesis HI : Inv g s st.
Hypothesis Hpq : pq st = [].

Lemma final_visited (v : jsstring) :
  isFinite (distOf (dist st) v) = true -> In v (visited st).
Proof.
  intros Hf. destruct (Set_has (visited st) v) eqn:Hv.
  - now apply Set_has_In.
  - apply Set_has_false in Hv.
    pose proof (inv_frontier g s st (proj1 HI) v Hv Hf) as Hin.
    rewrite Hpq in Hin. destruct Hin.
Qed.

Lemma last_cons (a b : jsstring) (l : list jsstring) :
  last (a :: l) b = last l a.
Proof.
  revert a b. induction l as [|x l IH]; intros a b; [reflexivity|].
  change (last (x :: l) b = last (x :: l) a). now rewrite !IH.
Qed.

Lemma final_lower_bound (rest : list jsstring) (acc : number)
  (cur : jsstring) (sigma : number) :
  distance acc -> leq (distOf (dist st) cur) acc ->
  walkWeight g acc cur rest = Some sigma ->
  leq (distOf (dist st) (last rest cur)) sigma.
Proof.
  revert acc cur. induction rest as [|nxt rest IH]; intros acc cur.
  - simpl. intros _ Hle [= <-]. exact Hle.
  - rewrite last_cons. simpl. intros Hacc Hle.
    destruct (edgeWeight g cur nxt) as [w|] eqn:He; [|discriminate].
    destruct (wf_edge g cur nxt w Hwf He) as [Hw _].
    intros Hwalk.
    assert (Hnext : leq (distOf (dist st) nxt) (add acc w)).
    { pose proof (inv_dist g s st (proj1 HI)) as Hdist.
      destruct (isFinite (distOf (dist st) cur)) eqn:Hf.
      - apply (leq_trans _ (add (distOf (dist st) cur) w) _);
          auto using add_distance.
        + apply (proj2 HI); [now apply final_visited | exact He].
        + apply leq_add_mono; auto.
      - apply (leq_trans _ acc _); auto using add_distance, leq_add.
        rewrite (distance_not_finite _ (Hdist cur) Hf) in Hle.
        assert (acc = Infinity) as ->.
        { apply leq_antisym; auto using distance_Infinity.
          apply leq_Infinity. }
        apply leq_Infinity. }
    apply (IH (add acc w) nxt); auto using add_distance.
Qed.

Lemma walkWeight_snoc (r : list jsstring) (acc : number)
  (a v : jsstring) :
  walkWeight g acc a (r ++ [v]) =
  match walkWeight g acc a r with
  | Some d =>
      match edgeWeight g (last r a) v with
      | Some w => Some (add d w)
      | None => None
      end
  | None => None
  end.
Proof.
  revert acc a. induction r as [|x r IH]; intros acc a.
  - simpl. now destruct (edgeWeight g a v).
  - change (last (x :: r) a) with (last (x :: r) a).
    rewrite last_cons. simpl.
    destruct (edgeWeight g a x); [apply IH | reflexivity].
Qed.

(** The predecessor chain of a visited node: a duplicate-free path from
    the source, among the nodes visited no later, of the weight recorded
    for the node; [reconstructPath] walks it back. *)
Lemma chain_of_visited (n : nat) :
  forall l1 v l2, length l1 = n -> visited st = l1 ++ v :: l2 ->
  exists chain,
    incl chain (l1 ++ [v]) /\ NoDup chain /\
    isPath g s v chain (distOf (dist st) v) /\
    forall acc fuel, length chain <= fuel ->
      reconstructLoop fuel (prev st) (Some v) acc =
      Some (acc ++ rev chain).
Proof.
  induction n as [n IH] using lt_wf_ind.
  intros l1 v l2 Hlen Hvis.
  assert (Hv : In v (visited st)).
  { rewrite Hvis. apply in_or_app. right. now left. }
  destruct (prevOf (prev st) v) as [u|] eqn:Hp.
  - pose proof (inv_order g s st (proj1 HI) l1 v l2 u Hvis Hp) as Hu.
    destruct (inv_prev g s st (proj1 HI) v u Hp)
      as (_ & w & He & Hd & _).
    apply in_split in Hu. destruct Hu as (l1a & l1b & ->).
    destruct (IH (length l1a)) with (l1 := l1a) (v := u)
      (l2 := l1b ++ v :: l2) as (chain & Hincl & Hnd & Hpath & Hrec).
    { rewrite <- Hlen, length_app. simpl. lia. }
    { reflexivity. }
    { rewrite Hvis, <- app_assoc. reflexivity. }
    exists (chain ++ [v]).
    assert (Hnotin : ~ In v chain).
    { intros Hin. apply Hincl in Hin.
      pose proof (inv_nodup g s st (proj1 HI)) as Hndv.
      rewrite Hvis in Hndv. apply NoDup_remove_2 in Hndv.
      apply Hndv. apply in_or_app. left.
      apply in_app_or in Hin. apply in_or_app.
      destruct Hin as [Hin|[<-|[]]]; [now left | right; now left]. }
    split; [|split; [|split]].
    + intros x Hx. apply in_app_or in Hx. apply in_or_app.
      destruct Hx as [Hx|Hx]; [left | now right].
      apply Hincl in Hx. apply in_app_or in Hx. apply in_or_app.
      destruct Hx as [Hx|[<-|[]]]; [now left | right; now left].
    + apply NoDup_app; [exact Hnd | repeat constructor; simpl; tauto |].
      intros x Hx [<-|[]]. contradiction.
    + destruct Hpath as (Hhd & Hlast & Hweight).
      destruct chain as [|a r]; [discriminate|].
      injection Hhd as ->. rewrite last_cons in Hlast.
      split; [reflexivity|]. split.
      * change ((s :: r) ++ [v]) with (s :: (r ++ [v])).
        rewrite last_cons. apply last_last.
      * simpl in *. rewrite walkWeight_snoc, Hweight, Hlast, He.
        now rewrite Hd.
    + intros acc fuel Hfuel. rewrite length_app in Hfuel. simpl in Hfuel.
      destruct fuel as [|fuel]; [lia|]. simpl. rewrite Hp.
      rewrite Hrec by lia. rewrite rev_app_distr. simpl.
      now rewrite <- app_assoc.
  - destruct (inv_reached g s st (proj1 HI) v) as [->|[u Hu]];
      [apply (inv_visited g s st (proj1 HI) v Hv) | | congruence].
    exists [s]. split; [|split; [|split]].
    + intros x [<-|[]]. apply in_or_app. right. now left.
    + repeat constructor. simpl. tauto.
    + split; [reflexivity|]. split; [reflexivity|]. simpl.
      now rewrite (proj1 (inv_source g s st (proj1 HI))).
    + intros acc fuel Hfuel. simpl in Hfuel.
      destruct fuel as [|fuel]; [lia|]. simpl. rewrite Hp.
      now destruct fuel.
Qed.

Lemma visited_bound : length (visited st) <= length (keys g).
Proof.
  apply NoDup_incl_length; [apply (inv_nodup g s st (proj1 HI))|].
  intros v Hv. apply has_In_keys.
  apply (inv_visited g s st (proj1 HI) v Hv).
Qed.

Lemma chain_of_finite (v : jsstring) :
  isFinite (distOf (dist st) v) = true ->
  exists chain,
    NoDup chain /\ length chain <= length (keys g) /\
    isPath g s v chain (distOf (dist st) v) /\
    forall fuel, length chain <= fuel ->
      reconstructPath fuel (prev st) v = Some chain.
Proof.
  intros Hf. pose proof (final_visited v Hf) as Hv.
  apply in_split in Hv. destruct Hv as (l1 & l2 & Hvis).
  destruct (chain_of_visited (length l1) l1 v l2 eq_refl Hvis)
    as (chain & Hincl & Hnd & Hpath & Hrec).
  exists chain. split; [exact Hnd|]. split; [|split; [exact Hpath|]].
  - transitivity (length (visited st)); [|apply visited_bound].
    apply NoDup_incl_length; [exact Hnd|].
    intros x Hx. apply Hincl in Hx. rewrite Hvis.
    apply in_app_or in Hx. apply in_or_app.
    destruct Hx as [Hx|[<-|[]]]; [now left | right; now left].
  - intros fuel Hfuel. unfold reconstructPath.
    rewrite (Hrec [] fuel Hfuel). simpl. now rewrite rev_involutive.
Qed.

Lemma not_finite_unset (v : jsstring) :
  isFinite (distOf (dist st) v) = false ->
  distOf (dist st) v = Infinity /\ prevOf (prev st) v = None /\
  forall fuel, 1 <= fuel -> reconstructPath fuel (prev st) v = Some [v].
Proof.
  intros Hf.
  assert (Hp : prevOf (prev st) v = None).
  { destruct (prevOf (prev st) v) as [u|] eqn:Hp; [|reflexivity].
    destruct (inv_prev g s st (proj1 HI) v u Hp) as (_ & w & _ & _ & H).
    congruence. }
  split; [|split; [exact Hp|]].
  - apply distance_not_finite; [apply (inv_dist g s st (proj1 HI))|].
    exact Hf.
  - intros fuel Hfuel. unfold reconstructPath.
    destruct fuel as [|fuel]; [lia|]. simpl. rewrite Hp.
    now destruct fuel.
Qed.
End Final.
End Result.

(** ** The statements about dijkstra and reconstructPath *)

Section Claims.
Context {JN : JSNumber} {JL : JSNumberLaws}.

Lemma distOf_get (dmap : Map number) (n : jsstring) (d : number) :
  get dmap n = Some d -> distOf dmap n = d.
Proof. unfold distOf. now intros ->. Qed.

Lemma isPath_walk (g : Graph) (s n : jsstring) (p : list jsstring)
  (d : number) :
  isPath g s n p d ->
  exists rest, p = s :: rest /\ last rest s = n /\
               walkWeight g zero s rest = Some d.
Proof.
  intros (Hhd & Hlast & Hw). destruct p as [|a rest]; [discriminate|].
  injection Hhd as ->. exists rest. split; [reflexivity|].
  split; [|exact Hw]. now rewrite <- Hlast, last_cons.
Qed.

Lemma walkWeight_edges (g : Graph) (rest : list jsstring) (acc : number)
  (a : jsstring) (d : number) :
  walkWeight g acc a rest = Some d ->
  forall i x y, nth_error (a :: rest) i = Some x ->
                nth_error (a :: rest) (S i) = Some y ->
                exists w, edgeWeight g x y = Some w.
Proof.
  revert acc a. induction rest as [|b rest IH]; intros acc a; simpl.
  - intros _ [|i] x y; simpl; [discriminate | now destruct i].
  - destruct (edgeWeight g a b) as [w|] eqn:He; [|discriminate].
    intros Hw [|i] x y.
    + simpl. intros [= <-] [= <-]. eauto.
    + intros Hx Hy. apply (IH _ _ Hw i x y); assumption.
Qed.

(** C1: on a graph built by [parseEdges], from a source that is a node of
    the graph, [dijkstra] returns (every fuel from [fuelBound] on gives the
    same maps), and every node whose recorded distance [d] is finite has a
    path from the source whose weights sum up to [d], while no path from
    the source to it sums up to less than [d]. *)
Theorem dijkstra_distances_are_shortest (text : jsstring) (und : bool)
  (g : Graph) (source : jsstring) :
  parseEdges text und = Ok g ->
  has g source = true ->
  (exists dmap pmap, forall fuel, fuelBound g <= fuel ->
     dijkstra fuel g source = Some (Ok (dmap, pmap))) /\
  forall fuel dmap pmap,
    dijkstra fuel g source = Some (Ok (dmap, pmap)) ->
    forall n d, get dmap n = Some d -> isFinite d = true ->
      (exists p, isPath g source n p d) /\
      (forall p d', isPath g source n p d' -> ltb d' d = false).
Proof.
  intros Hparse Hs. pose proof (wf_graph_parseEdges _ _ _ Hparse) as Hwf.
  split; [now apply dijkstra_returns|].
  intros fuel dmap pmap Hrun n d Hd Hf.
  destruct (dijkstra_Ok_Inv fuel g source dmap pmap Hwf Hrun)
    as (_ & st & HI & Hpq & <- & <-).
  apply distOf_get in Hd. subst d. split.
  - destruct (chain_of_finite g source st HI Hpq n Hf)
      as (chain & _ & _ & Hpath & _).
    eauto.
  - intros p d' Hp. apply isPath_walk in Hp.
    destruct Hp as (rest & _ & <- & Hw).
    apply (final_lower_bound g source st Hwf HI Hpq rest zero source d').
    + apply distance_zero.
    + rewrite (proj1 (inv_source g source st (proj1 HI))). apply leq_refl.
    + exact Hw.
Qed.

(** C2: for a target whose recorded distance [d] is finite,
    [reconstructPath] returns (every fuel from the number of nodes on) a
    sequence from the source to the target in which every consecutive pair
    is an edge of the graph and whose edge weights sum up to [d]. *)
Theorem reconstructPath_follows_edges (text : jsstring) (und : bool)
  (g : Graph) (source : jsstring) (fuel : nat) (dmap : Map number)
  (pmap : Map (option jsstring)) (target : jsstring) (d : number) :
  parseEdges text und = Ok g ->
  dijkstra fuel g source = Some (Ok (dmap, pmap)) ->
  get dmap target = Some d -> isFinite d = true ->
  exists path,
    (forall fuel', length (keys g) <= fuel' ->
       reconstructPath fuel' pmap target = Some path) /\
    hd_error path = Some source /\ last path source = target /\
    (forall i a b, nth_error path i = Some a ->
                   nth_error path (S i) = Some b ->
                   exists w, edgeWeight g a b = Some w) /\
    pathWeight g path = Some d.
Proof.
  intros Hparse Hrun Hd Hf.
  pose proof (wf_graph_parseEdges _ _ _ Hparse) as Hwf.
  destruct (dijkstra_Ok_Inv fuel g source dmap pmap Hwf Hrun)
    as (_ & st & HI & Hpq & <- & <-).
  apply distOf_get in Hd. subst d.
  destruct (chain_of_finite g source st HI Hpq target Hf)
    as (chain & _ & Hlen & Hpath & Hrec).
  exists chain. split; [intros fuel' Hfuel; apply Hrec; lia|].
  destruct Hpath as (Hhd & Hlast & Hw).
  split; [exact Hhd|]. split; [exact Hlast|]. split; [|exact Hw].
  destruct chain as [|a rest]; [discriminate|].
  apply (walkWeight_edges g rest zero a _ Hw).
Qed.

(** C4: when the source is not a key of the graph, [dijkstra] throws the
    error that names the source, whatever the fuel, even none: no
    iteration of the main loop runs before the error. *)
Theorem dijkstra_missing_source_throws (g : Graph) (source : jsstring)
  (fuel : nat) :
  has g source = false ->
  dijkstra fuel g source =
  Some (Throw (lit "Source '"%string ++ source
               ++ lit "' not in graph."%string)).
Proof.
  intros Hs. unfold dijkstra. destruct (initMaps g). now rewrite Hs.
Qed.

(** C8, as amended: after [dijkstra], a target that is a node of the graph
    and is not reachable from the source has distance [Infinity] and the
    predecessor [null]; a target that is not a node of the graph has no
    entry in either map; in both cases [reconstructPath] returns the
    one-element sequence of the target. *)
Theorem unreachable_target_is_unset (text : jsstring) (und : bool)
  (g : Graph) (source : jsstring) (fuel : nat) (dmap : Map number)
  (pmap : Map (option jsstring)) (target : jsstring) :
  parseEdges text und = Ok g ->
  dijkstra fuel g source = Some (Ok (dmap, pmap)) ->
  ~ reachable g source target \/ has g target = false ->
  (if has g target
   then get dmap target = Some Infinity /\ get pmap target = Some None
   else get dmap target = None /\ get pmap target = None) /\
  forall fuel', 1 <= fuel' ->
    reconstructPath fuel' pmap target = Some [target].
Proof.
  intros Hparse Hrun Hun.
  pose proof (wf_graph_parseEdges _ _ _ Hparse) as Hwf.
  destruct (dijkstra_Ok_Inv fuel g source dmap pmap Hwf Hrun)
    as (_ & st & HI & Hpq & <- & <-).
  pose proof (inv_keys_dist g source st (proj1 HI) target) as Hkd.
  pose proof (inv_keys_prev g source st (proj1 HI) target) as Hkp.
  rewrite <- !has_In_keys in Hkd. rewrite <- !has_In_keys in Hkp.
  assert (Hnf : isFinite (distOf (dist st) target) = false).
  { destruct (isFinite (distOf (dist st) target)) eqn:Hf; [|reflexivity].
    destruct Hun as [Hun|Hun].
    - destruct (chain_of_finite g source st HI Hpq target Hf)
        as (chain & _ & _ & Hpath & _).
      elim Hun. red. eauto.
    - unfold distOf, has in *. destruct (get (dist st) target).
      + destruct (get g target); [discriminate|].
        destruct Hkd as [Hkd _]. specialize (Hkd eq_refl). discriminate.
      + rewrite Infinity_not_finite in Hf. discriminate. }
  destruct (not_finite_unset g source st HI target Hnf)
    as (HD & HP & Hrec).
  split; [|exact Hrec].
  unfold distOf, prevOf, has in *.
  destruct (get g target).
  - destruct (get (dist st) target);
      [|destruct Hkd as [_ Hkd]; specialize (Hkd eq_refl); discriminate].
    destruct (get (prev st) target);
      [|destruct Hkp as [_ Hkp]; specialize (Hkp eq_refl); discriminate].
    now subst.
  - destruct (get (dist st) target);
      [destruct Hkd as [Hkd _]; specialize (Hkd eq_refl); discriminate|].
    destruct (get (prev st) target);
      [destruct Hkp as [Hkp _]; specialize (Hkp eq_refl); discriminate|].
    auto.
Qed.

(** C9: on the predecessor map returned by [dijkstra], [reconstructPath]
    terminates for every target: the chain of predecessors from the target
    has no node twice, ends at a node without predecessor, and has at most
    as many nodes as the graph, so that many iterations of the loop
    suffice. *)
Theorem reconstructPath_terminates (text : jsstring) (und : bool)
  (g : Graph) (source : jsstring) (fuel : nat) (dmap : Map number)
  (pmap : Map (option jsstring)) (target : jsstring) :
  parseEdges text und = Ok g ->
  dijkstra fuel g source = Some (Ok (dmap, pmap)) ->
  NoDup (keys g) /\
  exists path first,
    NoDup path /\ length path <= length (keys g) /\
    hd_error path = Some first /\ prevOf pmap first = None /\
    last path first = target /\
    forall fuel', length path <= fuel' ->
      reconstructPath fuel' pmap target = Some path.
Proof.
  intros Hparse Hrun.
  split; [exact (NoDup_keys_parseEdges _ _ _ Hparse)|].
  pose proof (wf_graph_parseEdges _ _ _ Hparse) as Hwf.
  destruct (dijkstra_Ok_Inv fuel g source dmap pmap Hwf Hrun)
    as (Hs & st & HI & Hpq & <- & <-).
  destruct (isFinite (distOf (dist st) target)) eqn:Hf.
  - destruct (chain_of_finite g source st HI Hpq target Hf)
      as (chain & Hnd & Hlen & (Hhd & Hlast & _) & Hrec).
    exists chain, source. repeat split; auto.
    apply (inv_source g source st (proj1 HI)).
  - destruct (not_finite_unset g source st HI target Hf)
      as (_ & HP & Hrec).
    exists [target], target. repeat split; auto.
    + repeat constructor. simpl. tauto.
    + apply has_In_keys in Hs. simpl.
      destruct (keys g); [destruct Hs | simpl; lia].
Qed.

End Claims.

(** ** dijkstra: the keys of the two maps *)

Section Keys.
Context {JN : JSNumber}.

Lemma relax_keysAgree (g : Graph) (d : number) (u : jsstring) (st : DState)
  (v : jsstring) (w : number) :
  has g v = true ->
  keysAgree g (dist st) (prev st) ->
  keysAgree g (dist (relax d u st (v, w))) (prev (relax d u st (v, w))).
Proof.
  intros Hv Hk. unfold relax.
  destruct (ltb (add d w) (distOf (dist st) v)); [|exact Hk].
  simpl. intros k. rewrite !keys_set_In.
  destruct (Hk k) as [Hd Hp]. apply has_In_keys in Hv.
  split; [rewrite Hd | rewrite Hp];
    (split; [intros [->|H]; [exact Hv | exact H] | auto]).
Qed.

Lemma relax_all_keysAgree (g : Graph) (d : number) (u : jsstring)
  (adj : list (jsstring * number)) (st : DState) :
  (forall v w, In (v, w) adj -> has g v = true) ->
  keysAgree g (dist st) (prev st) ->
  keysAgree g (dist (fold_left (relax d u) adj st))
    (prev (fold_left (relax d u) adj st)).
Proof.
  revert st. induction adj as [|[v w] adj IH]; intros st Hadj Hk; simpl.
  - exact Hk.
  - apply IH; [intros v' w' H; apply (Hadj v' w'); now right|].
    apply relax_keysAgree; [apply (Hadj v w); now left | exact Hk].
Qed.

Lemma adjOf_closed (g : Graph) (u v : jsstring) (w : number) :
  wf_graph g -> In (v, w) (adjOf g u) -> has g v = true.
Proof.
  intros Hwf. unfold adjOf.
  destruct (get g u) as [adj|] eqn:Hu; [|intros []].
  destruct (Hwf u adj Hu) as [Hnd Hadj]. intros Hin.
  apply (Hadj v w). now apply In_get.
Qed.

Lemma step_keysAgree (g : Graph) (st : DState) :
  wf_graph g ->
  keysAgree g (dist st) (prev st) ->
  keysAgree g (dist (step g st)) (prev (step g st)).
Proof.
  intros Hwf Hk. unfold step.
  destruct (pop (pq st)) as [[[d u] rest]|]; [|exact Hk].
  destruct (Set_has (visited st) u); [exact Hk|].
  apply relax_all_keysAgree; [|exact Hk].
  intros v w. now apply adjOf_closed.
Qed.

Lemma loop_keysAgree (fuel : nat) (g : Graph) (st st' : DState) :
  wf_graph g ->
  keysAgree g (dist st) (prev st) ->
  loop fuel g st = Some st' ->
  keysAgree g (dist st') (prev st').
Proof.
  intros Hwf. revert st. induction fuel as [|fuel IH]; intros st Hk; simpl.
  - destruct (pq st); [|discriminate]. now intros [= <-].
  - destruct (pq st); [now intros [= <-]|].
    apply IH. now apply step_keysAgree.
Qed.

(** C10: the distance map and the predecessor map returned by [dijkstra]
    on a graph built by [parseEdges] have exactly the keys of the graph;
    every neighbour in such a graph is one of its keys, so that relaxation
    writes no other entry. *)
Theorem dijkstra_maps_have_graph_keys (text : jsstring) (und : bool)
  (g : Graph) (source : jsstring) (fuel : nat) (dmap : Map number)
  (pmap : Map (option jsstring)) :
  parseEdges text und = Ok g ->
  dijkstra fuel g source = Some (Ok (dmap, pmap)) ->
  (forall k, (In k (keys dmap) <-> In k (keys g)) /\
             (In k (keys pmap) <-> In k (keys g))) /\
  (forall u v w, edgeWeight g u v = Some w ->
                 In u (keys g) /\ In v (keys g)).
Proof.
  intros Hparse Hrun.
  pose proof (wf_graph_parseEdges _ _ _ Hparse) as Hwf.
  split.
  - unfold dijkstra in Hrun.
    pose proof (initMaps_spec g) as (_ & _ & Hd0 & Hp0).
    destruct (initMaps g) as [d0 p0]. simpl in Hd0, Hp0.
    destruct (has g source) eqn:Hs; simpl in Hrun; [|discriminate].
    destruct (loop fuel g _) as [st|] eqn:Hloop; [|discriminate].
    injection Hrun as <- <-.
    refine (loop_keysAgree fuel g _ st Hwf _ Hloop).
    simpl. intros k. rewrite keys_set_In, Hd0. apply has_In_keys in Hs.
    split; [|apply Hp0].
    split; [intros [->|H]; [exact Hs | exact H] | auto].
  - intros u v w He. unfold edgeWeight in He.
    destruct (get g u) as [adj|] eqn:Hu; [|discriminate].
    split.
    + apply has_In_keys. unfold has. now rewrite Hu.
    + apply has_In_keys. apply (proj2 (Hwf u adj Hu) v w He).
Qed.
End Keys.

(** * The statements on sample inputs *)

Section OnSamples.
Import IntNumber Samples.

Lemma chainGraph_parsed : parseEdges chainText true = Ok chainGraph.
Proof. reflexivity. Qed.

Lemma chainGraph_run :
  dijkstra 4 chainGraph A = Some (Ok (chainDist, chainPrev)).
Proof. reflexivity. Qed.

Lemma chainDirected_unreachable : ~ reachable chainDirected C A.
Proof.
  intros (p & d & Hhd & Hlast & Hw).
  destruct p as [|a [|b rest]]; try discriminate.
  - injection Hhd as ->. discriminate.
  - injection Hhd as ->. unfold pathWeight in Hw.
    change (walkWeight chainDirected zero C (b :: rest))
      with (@None number) in Hw.
    discriminate.
Qed.

Lemma dijkstra_distances_are_shortest_witness :
  JSNumberLaws /\
  parseEdges chainText true = Ok chainGraph /\
  has chainGraph A = true /\
  ((exists dmap pmap, forall fuel, fuelBound chainGraph <= fuel ->
      dijkstra fuel chainGraph A = Some (Ok (dmap, pmap))) /\
   forall fuel dmap pmap,
     dijkstra fuel chainGraph A = Some (Ok (dmap, pmap)) ->
     forall n d, get dmap n = Some d -> isFinite d = true ->
       (exists p, isPath chainGraph A n p d) /\
       (forall p d', isPath chainGraph A n p d' -> ltb d' d = false)).
Proof.
  split; [exact IntNumber_laws|].
  split; [reflexivity|]. split; [reflexivity|].
  apply (@dijkstra_distances_are_shortest IntJSNumber IntNumber_laws
           chainText true chainGraph A); reflexivity.
Defined.

Lemma reconstructPath_follows_edges_witness :
  JSNumberLaws /\
  parseEdges chainText true = Ok chainGraph /\
  dijkstra 4 chainGraph A = Some (Ok (chainDist, chainPrev)) /\
  get chainDist C = Some (Fin 8) /\ isFinite (Fin 8) = true /\
  exists path,
    (forall fuel', length (keys chainGraph) <= fuel' ->
       reconstructPath fuel' chainPrev C = Some path) /\
    hd_error path = Some A /\ last path A = C /\
    (forall i a b, nth_error path i = Some a ->
                   nth_error path (S i) = Some b ->
                   exists w, edgeWeight chainGraph a b = Some w) /\
    pathWeight chainGraph path = Some (Fin 8).
Proof.
  split; [exact IntNumber_laws|].
  split; [reflexivity|]. split; [reflexivity|].
  split; [reflexivity|]. split; [reflexivity|].
  apply (@reconstructPath_follows_edges IntJSNumber IntNumber_laws
           chainText true chainGraph A 4 chainDist chainPrev C (Fin 8));
    reflexivity.
Defined.

Lemma parseEdges_throws_iff_offending_line_witness :
  JSNumberLaws /\
  (((exists msg, parseEdges A true = Throw msg) <->
    (exists raw, In raw (splitLines A) /\ offending raw)) /\
   (forall msg, parseEdges A true = Throw msg ->
      exists before raw after,
        splitLines A = before ++ raw :: after /\
        Forall (fun r => ~ offending r) before /\
        offending raw /\ carries raw msg) /\
   (forall g, parseEdges A true = Ok g ->
      forall raw, In raw (splitLines A) -> ~ offending raw)).
Proof.
  split; [exact IntNumber_laws|].
  exact (@parseEdges_throws_iff_offending_line IntJSNumber IntNumber_laws
           A true).
Defined.

Lemma dijkstra_missing_source_throws_witness :
  has chainGraph Z = false /\
  dijkstra 0 chainGraph Z =
  Some (Throw (lit "Source '"%string ++ Z ++ lit "' not in graph."%string)).
Proof.
  split; [reflexivity|].
  apply (@dijkstra_missing_source_throws IntJSNumber chainGraph Z 0).
  reflexivity.
Defined.

Lemma lineBC3_not_AB : forall r, In r [lineBC3] -> ~ joins r A B.
Proof.
  intros r [<-|[]] [(_ & _ & H & _)|(_ & _ & _ & H)];
    vm_compute in H; discriminate H.
Qed.

Lemma parseEdges_undirected_last_edge_both_ways_witness :
  parseEdges chainText true = Ok chainGraph /\
  splitLines chainText = [] ++ lineAB5 :: [lineBC3] /\
  parsedEdge lineAB5 A B (Fin 5) /\
  (forall r, In r [lineBC3] -> ~ joins r A B) /\
  edgeWeight chainGraph A B = Some (Fin 5) /\
  edgeWeight chainGraph B A = Some (Fin 5).
Proof.
  assert (Hedge : parsedEdge lineAB5 A B (Fin 5)).
  { split; [|reflexivity]. split; [reflexivity|].
    split; [|split; reflexivity]. vm_compute. repeat constructor. }
  split; [reflexivity|]. split; [reflexivity|]. split; [exact Hedge|].
  split; [exact lineBC3_not_AB|].
  apply (@parseEdges_undirected_last_edge_both_ways IntJSNumber chainText
           chainGraph [] [lineBC3] lineAB5 A B (Fin 5));
    [reflexivity | reflexivity | exact Hedge | exact lineBC3_not_AB].
Defined.

Lemma parseEdges_default_weight_is_one_witness :
  JSNumberLaws /\
  skipLine (trim lineAB) = false /\ skipLine (trim lineAB1) = false /\
  splitWs (trim lineAB) = [A; B] /\
  splitWs (trim lineAB1) = [A; B; lit "1"%string] /\
  Number (lit "1"%string) = one /\
  splitLines lineAB = [] ++ lineAB :: [] /\
  splitLines lineAB1 = [] ++ lineAB1 :: [] /\
  parseEdges lineAB true = parseEdges lineAB1 true /\
  (forall g0, parseLine true g0 lineAB = Ok (addEdge true g0 A B one) /\
              parseLine true g0 lineAB1 = Ok (addEdge true g0 A B one)) /\
  (forall g, parseEdges lineAB true = Ok g ->
     (forall r, In r [] -> ~ joins r A B) ->
     edgeWeight g A B = Some one /\
     (true = true -> edgeWeight g B A = Some one)).
Proof.
  split; [exact IntNumber_laws|]. do 7 (split; [reflexivity|]).
  apply (@parseEdges_default_weight_is_one IntJSNumber IntNumber_laws
           true lineAB lineAB1 [] [] lineAB lineAB1 A B
           (lit "1"%string)); reflexivity.
Defined.

Lemma unreachable_target_is_unset_witness :
  JSNumberLaws /\
  parseEdges chainText false = Ok chainDirected /\
  dijkstra 4 chainDirected C = Some (Ok (directedDist, directedPrev)) /\
  (~ reachable chainDirected C A \/ has chainDirected A = false) /\
  (if has chainDirected A
   then get directedDist A = Some Infinity /\
        get directedPrev A = Some None
   else get directedDist A = None /\ get directedPrev A = None) /\
  forall fuel', 1 <= fuel' ->
    reconstructPath fuel' directedPrev A = Some [A].
Proof.
  split; [exact IntNumber_laws|].
  split; [reflexivity|]. split; [reflexivity|].
  split; [left; exact chainDirected_unreachable|].
  apply (@unreachable_target_is_unset IntJSNumber IntNumber_laws
           chainText false chainDirected C 4 directedDist directedPrev A);
    [reflexivity | reflexivity | left; exact chainDirected_unreachable].
Defined.

Lemma reconstructPath_terminates_witness :
  JSNumberLaws /\
  parseEdges chainText true = Ok chainGraph /\
  dijkstra 4 chainGraph A = Some (Ok (chainDist, chainPrev)) /\
  NoDup (keys chainGraph) /\
  exists path first,
    NoDup path /\ length path <= length (keys chainGraph) /\
    hd_error path = Some first /\ prevOf chainPrev first = None /\
    last path first = C /\
    forall fuel', length path <= fuel' ->
      reconstructPath fuel' chainPrev C = Some path.
Proof.
  split; [exact IntNumber_laws|].
  split; [reflexivity|]. split; [reflexivity|].
  apply (@reconstructPath_terminates IntJSNumber IntNumber_laws
           chainText true chainGraph A 4 chainDist chainPrev C);
    reflexivity.
Defined.

Lemma dijkstra_maps_have_graph_keys_witness :
  parseEdges chainText true = Ok chainGraph /\
  dijkstra 4 chainGraph A = Some (Ok (chainDist, chainPrev)) /\
  (forall k, (In k (keys chainDist) <-> In k (keys chainGraph)) /\
             (In k (keys chainPrev) <-> In k (keys chainGraph))) /\
  (forall u v w, edgeWeight chainGraph u v = Some w ->
                 In u (keys chainGraph) /\ In v (keys chainGraph)).
Proof.
  split; [reflexivity|]. split; [reflexivity|].
  apply (@dijkstra_maps_have_graph_keys IntJSNumber chainText true
           chainGraph A 4 chainDist chainPrev); reflexivity.
Defined.

(** C5 as stated fails: in the text [A B 5], [A B 3] the first line is
    parsed as the edge (A, B, 5), and the graph holds the weight 3 of the
    second line. *)
Lemma every_parsed_edge_kept_counterexample :
  ~ (forall (text : jsstring) (g : Graph) (raw u v : jsstring)
            (w : number),
       parseEdges text true = Ok g ->
       In raw (splitLines text) ->
       parsedEdge raw u v w ->
       edgeWeight g u v = Some w /\ edgeWeight g v u = Some w).
Proof.
  intros H.
  destruct (H twiceText (graphOf (parseEdges twiceText true)) lineAB5 A B
              (Fin 5)) as [H1 _].
  - reflexivity.
  - left. reflexivity.
  - split; [|reflexivity]. split; [reflexivity|].
    split; [|split; reflexivity]. vm_compute. repeat constructor.
  - vm_compute in H1. discriminate H1.
Qed.

(** C8 as stated fails: the target [Z] is not a node of the graph of
    [A B 5], [B C 3], and the distance map has no entry for it, rather than
    the entry [Infinity]. *)
Lemma absent_target_distance_counterexample :
  ~ (forall (text : jsstring) (und : bool) (g : Graph)
            (source : jsstring) (fuel : nat) (dmap : Map number)
            (pmap : Map (option jsstring)) (target : jsstring),
       parseEdges text und = Ok g ->
       dijkstra fuel g source = Some (Ok (dmap, pmap)) ->
       ~ reachable g source target \/ has g target = false ->
       get dmap target = Some Infinity /\ prevOf pmap target = None /\
       reconstructPath 1 pmap target = Some [target]).
Proof.
  intros H.
  destruct (H chainText true chainGraph A 4 chainDist chainPrev Z)
    as [H1 _].
  - reflexivity.
  - reflexivity.
  - right. reflexivity.
  - discriminate H1.
Qed.
(** The scenarios of the specification. *)

Example scenario_chain_undirected :
  parseEdges chainText true = Ok chainGraph /\
  dijkstra (fuelBound chainGraph) chainGraph A
  = Some (Ok (chainDist, chainPrev)) /\
  get chainDist C = Some (Fin 8) /\
  reconstructPath 3 chainPrev C = Some [A; B; C].
Proof. repeat split. Qed.

Example scenario_directed_no_path :
  exists g dmap pmap,
    parseEdges lineAB5 false = Ok g /\
    dijkstra (fuelBound g) g B = Some (Ok (dmap, pmap)) /\
    get dmap A = Some Infinity /\
    reconstructPath 1 pmap A = Some [A].
Proof. do 3 eexists. repeat split. Qed.

Example scenario_default_weights :
  exists g dmap pmap,
    parseEdges (lineAB ++ [10%N] ++ lit "B C"%string) true = Ok g /\
    dijkstra (fuelBound g) g A = Some (Ok (dmap, pmap)) /\
    get dmap C = Some (Fin 2) /\
    reconstructPath 3 pmap C = Some [A; B; C].
Proof. do 3 eexists. repeat split. Qed.

Example scenario_one_field :
  parseEdges A true = Throw (msgFields ++ A).
Proof. reflexivity. Qed.

Example scenario_negative_weight :
  parseEdges (lit "A B -3"%string) true
  = Throw (msgWeight ++ lit "A B -3"%string).
Proof. reflexivity. Qed.

Example scenario_missing_source :
  dijkstra (fuelBound chainGraph) chainGraph Z = Some (Throw (msgSource Z)).
Proof. reflexivity. Qed.

Example extractNodes_lenient :
  extractNodes (lit "B A x"%string ++ [13%N; 10%N] ++ lit "# C D"%string
                ++ [10%N] ++ lit "  C   AA  -1 "%string ++ [10%N] ++ Z)
  = [A; lit "AA"%string; B; C].
Proof. reflexivity. Qed.
End OnSamples.

(** * Further properties of the code *)

(** ** escapeHtml *)

Lemma escapeChar_cases (c : N) :
  (escapeClass c = false /\ escapeChar c = [c]) \/
  (c = 38%N /\ escapeChar c = lit "&amp;"%string) \/
  (c = 60%N /\ escapeChar c = lit "&lt;"%string) \/
  (c = 62%N /\ escapeChar c = lit "&gt;"%string) \/
  (c = 34%N /\ escapeChar c = lit "&quot;"%string) \/
  (c = 39%N /\ escapeChar c = lit "&#39;"%string) \/
  (c = 92%N /\ escapeChar c = lit "undefined"%string).
Proof.
  unfold escapeChar, escapeClass, escapeTable.
  destruct (N.eqb_spec c 38) as [->|H38]; [right; left; auto|].
  destruct (N.eqb_spec c 60) as [->|H60]; [right; right; left; auto|].
  destruct (N.eqb_spec c 62) as [->|H62];
    [right; right; right; left; auto|].
  destruct (N.eqb_spec c 92) as [->|H92];
    [do 6 right; auto|].
  destruct (N.eqb_spec c 34) as [->|H34];
    [do 4 right; left; auto|].
  destruct (N.eqb_spec c 39) as [->|H39];
    [do 5 right; left; auto|].
  left. auto.
Qed.

Lemma escapeClass_false (c : N) :
  escapeClass c = false ->
  c <> 38%N /\ c <> 60%N /\ c <> 62%N /\ c <> 92%N /\ c <> 34%N /\ c <> 39%N.
Proof.
  unfold escapeClass. rewrite !orb_false_iff, !N.eqb_neq. tauto.
Qed.

(** X1: the text returned by [escapeHtml] holds no less-than or
    greater-than sign, no double or single quote and no backslash. *)
Theorem escapeHtml_output_has_no_markup (s : jsstring) :
  Forall (fun c => c <> 60%N /\ c <> 62%N /\ c <> 34%N /\ c <> 39%N /\
                   c <> 92%N) (escapeHtml s).
Proof.
  unfold escapeHtml. induction s as [|c s IH]; simpl; [constructor|].
  apply Forall_app. split; [|exact IH].
  destruct (escapeChar_cases c)
    as [[Hc ->]|[[_ ->]|[[_ ->]|[[_ ->]|[[_ ->]|[[_ ->]|[_ ->]]]]]]].
  - apply escapeClass_false in Hc. repeat constructor; tauto.
  - cbv. repeat constructor; discriminate.
  - cbv. repeat constructor; discriminate.
  - cbv. repeat constructor; discriminate.
  - cbv. repeat constructor; discriminate.
  - cbv. repeat constructor; discriminate.
  - cbv. repeat constructor; discriminate.
Qed.

Lemma escapeChar_length (c : N) :
  (escapeClass c = false /\ length (escapeChar c) = 1) \/
  (escapeClass c = true /\ 1 < length (escapeChar c)).
Proof.
  destruct (escapeChar_cases c)
    as [[Hc ->]|[[-> ->]|[[-> ->]|[[-> ->]|[[-> ->]|[[-> ->]|[-> ->]]]]]]];
    [left; auto | right; split; [reflexivity | cbv; lia] ..].
Qed.

Lemma escapeHtml_length (s : jsstring) :
  length s <= length (escapeHtml s) /\
  (Exists (fun c => escapeClass c = true) s ->
   length s < length (escapeHtml s)).
Proof.
  unfold escapeHtml. induction s as [|c s [IH1 IH2]]; simpl.
  - split; [lia | intros H; inversion H].
  - rewrite length_app.
    destruct (escapeChar_length c) as [[Hc ->]|[Hc Hl]].
    + split; [lia|]. intros H. inversion H; subst; [congruence|].
      specialize (IH2 H1). lia.
    + split; lia.
Qed.

(** X2: [escapeHtml] returns its argument unchanged exactly when the
    argument holds none of the six characters of the class. *)
Theorem escapeHtml_unchanged_iff (s : jsstring) :
  escapeHtml s = s <-> Forall (fun c => escapeClass c = false) s.
Proof.
  split.
  - intros Heq. apply Forall_forall. intros c Hc.
    destruct (escapeClass c) eqn:E; [|reflexivity].
    destruct (escapeHtml_length s) as [_ Hlt].
    assert (Hex : Exists (fun c => escapeClass c = true) s)
      by (apply Exists_exists; eauto).
    specialize (Hlt Hex). rewrite Heq in Hlt. lia.
  - unfold escapeHtml. induction 1 as [|c s Hc _ IH]; simpl; [reflexivity|].
    assert (Hec : escapeChar c = [c])
      by (unfold escapeChar; now rewrite Hc).
    rewrite Hec. simpl. now rewrite IH.
Qed.

(** X3: a backslash is replaced by the text undefined, the table of
    [escapeHtml] having no entry for it; a text with a backslash and the text
    with undefined in its place are escaped to the same result. *)
Theorem escapeHtml_backslash_is_undefined (s t : jsstring) :
  escapeHtml (s ++ 92%N :: t)
  = escapeHtml s ++ lit "undefined"%string ++ escapeHtml t /\
  escapeHtml (s ++ 92%N :: t)
  = escapeHtml (s ++ lit "undefined"%string ++ t).
Proof.
  unfold escapeHtml. rewrite !flat_map_app. split; reflexivity.
Qed.

Lemma escapeChar_prefix_inj (c c' : N) (x y : jsstring) :
  c <> 92%N -> c' <> 92%N ->
  escapeChar c ++ x = escapeChar c' ++ y -> c = c' /\ x = y.
Proof.
  intros Hc Hc'.
  destruct (escapeChar_cases c)
    as [[H1 ->]|[[-> ->]|[[-> ->]|[[-> ->]|[[-> ->]|[[-> ->]|[-> _]]]]]]];
    [| | | | | |congruence];
    (destruct (escapeChar_cases c')
      as [[H2 ->]|[[-> ->]|[[-> ->]|[[-> ->]|[[-> ->]|[[-> ->]|[-> _]]]]]]];
      [| | | | | |congruence]);
    cbn; intros H;
    first [ discriminate H
          | injection H; intros; subst;
            first [ now (cbv in H1) | now (cbv in H2) | now split ] ].
Qed.

(** X4: on texts without backslash [escapeHtml] is injective: the text can
    be recovered from its escaped form. *)
Theorem escapeHtml_injective_without_backslash (a b : jsstring) :
  ~ In 92%N a -> ~ In 92%N b -> escapeHtml a = escapeHtml b -> a = b.
Proof.
  unfold escapeHtml. revert b.
  induction a as [|c a IH]; intros [|c' b] Ha Hb; simpl.
  - reflexivity.
  - intros H. exfalso.
    destruct (escapeChar_length c') as [[_ Hl]|[_ Hl]];
      destruct (escapeChar c'); simpl in *; try lia; discriminate.
  - intros H. exfalso.
    destruct (escapeChar_length c) as [[_ Hl]|[_ Hl]];
      destruct (escapeChar c); simpl in *; try lia; discriminate.
  - intros H. simpl in Ha, Hb.
    apply escapeChar_prefix_inj in H; [|intuition congruence ..].
    destruct H as [-> H]. f_equal. apply IH; tauto.
Qed.

(** ** parseEdges: the keys and the edges of the graph *)

Section ParseMore.
Context {JN : JSNumber}.

Lemma Set_has_keys (g : Graph) (u : jsstring) :
  Set_has (keys g) u = has g u.
Proof.
  apply eq_true_iff_eq. rewrite Set_has_In, has_In_keys. tauto.
Qed.

Lemma keys_ensure (g : Graph) (u : jsstring) :
  keys (ensure g u) = Set_add (keys g) u.
Proof.
  unfold ensure, Set_add. rewrite Set_has_keys.
  destruct (has g u) eqn:Hu; [reflexivity|].
  now rewrite keys_set, Hu.
Qed.

Lemma keys_setEdge (g : Graph) (u v : jsstring) (w : number) :
  keys (setEdge g u v w) = keys g.
Proof.
  unfold setEdge. destruct (get g u) as [adj|] eqn:Hu; [|reflexivity].
  rewrite keys_set. unfold has. now rewrite Hu.
Qed.

Lemma keys_addEdge (und : bool) (g : Graph) (u v : jsstring) (w : number) :
  keys (addEdge und g u v w) = Set_add (Set_add (keys g) u) v.
Proof.
  unfold addEdge.
  destruct und; rewrite ?keys_setEdge, !keys_ensure; reflexivity.
Qed.

Lemma keys_parseLines (und : bool) (lines : list jsstring) (g g' : Graph) :
  parseLines und lines g = Ok g' ->
  keys g' = fold_left extractLine lines (keys g).
Proof.
  revert g. induction lines as [|raw lines IH]; intros g; simpl.
  - now intros [= <-].
  - destruct (parseLine und g raw) as [g1|] eqn:Hline; [|discriminate].
    intros Hrest. rewrite (IH g1 Hrest). f_equal.
    apply parseLine_Ok in Hline. unfold extractLine.
    destruct Hline
      as [[Hs ->]|(a & b & w & [(Hs & Hlen & -> & ->) _] & _ & ->)].
    + now rewrite Hs.
    + rewrite Hs. apply Nat.leb_le in Hlen. rewrite Hlen.
      apply keys_addEdge.
Qed.

(** X5: when [parseEdges] returns a graph, [extractNodes] on the same text
    returns the keys of that graph, sorted: the suggested node names are
    exactly the nodes of the graph. *)
Theorem extractNodes_is_sorted_graph_keys (text : jsstring) (und : bool)
  (g : Graph) :
  parseEdges text und = Ok g ->
  extractNodes text = Array_sort (fun x y => str_ltb y x) (keys g) /\
  forall k, In k (extractNodes text) <-> has g k = true.
Proof.
  intros Hparse. apply keys_parseLines in Hparse. simpl in Hparse.
  unfold extractNodes. rewrite <- Hparse. split; [reflexivity|].
  intros k. rewrite has_In_keys. split; intros H.
  - eapply Permutation_in; [apply Permutation_sym, Array_sort_perm|].
    exact H.
  - eapply Permutation_in; [apply Array_sort_perm | exact H].
Qed.

Lemma symmetric_parseLines (lines : list jsstring) (g g' : Graph) :
  (forall a b, edgeWeight g a b = edgeWeight g b a) ->
  parseLines true lines g = Ok g' ->
  forall a b, edgeWeight g' a b = edgeWeight g' b a.
Proof.
  revert g. induction lines as [|raw lines IH]; intros g Hsym; simpl.
  - now intros [= <-].
  - destruct (parseLine true g raw) as [g1|] eqn:Hline; [|discriminate].
    apply IH. apply parseLine_Ok in Hline.
    destruct Hline as [[_ ->]|(u & v & w & _ & _ & ->)]; [exact Hsym|].
    intros a b. rewrite !edgeWeight_addEdge, Hsym. simpl.
    destruct (str_eqb u a), (str_eqb v b), (str_eqb v a), (str_eqb u b);
      reflexivity.
Qed.

(** X6: a graph parsed with the undirected flag set is symmetric:
    [graph[a][b]] and [graph[b][a]] are both undefined or hold the same
    weight, for all [a] and [b]. *)
Theorem parseEdges_undirected_symmetric (text : jsstring) (g : Graph)
  (a b : jsstring) :
  parseEdges text true = Ok g ->
  edgeWeight g a b = edgeWeight g b a.
Proof.
  intros Hparse. revert a b.
  apply (symmetric_parseLines (splitLines text) []); [reflexivity|].
  exact Hparse.
Qed.

Lemma edgeWeight_untouched (und : bool) (lines : list jsstring)
  (g g' : Graph) (a b : jsstring) :
  parseLines und lines g = Ok g' ->
  (forall r, In r lines -> ~ lineSets und r a b) ->
  edgeWeight g' a b = edgeWeight g a b.
Proof.
  revert g. induction lines as [|raw lines IH]; intros g; simpl.
  - now intros [= <-].
  - destruct (parseLine und g raw) as [g1|] eqn:Hline; [|discriminate].
    intros Hrest Hno. rewrite (IH g1 Hrest) by auto.
    apply parseLine_Ok in Hline.
    destruct Hline as [[_ ->]|(u & v & w & [Hends _] & _ & ->)];
      [reflexivity|].
    rewrite edgeWeight_addEdge.
    destruct (str_eqb_spec u a) as [->|Hua];
      destruct (str_eqb_spec v b) as [->|Hvb]; simpl.
    + elim (Hno raw (or_introl eq_refl)). now left.
    + destruct und; simpl; [|reflexivity].
      destruct (str_eqb_spec v a) as [->|Hva];
        destruct (str_eqb_spec a b) as [->|Hab]; simpl;
        try reflexivity; congruence.
    + destruct und; simpl; [|reflexivity].
      destruct (str_eqb_spec b a) as [->|Hba];
        destruct (str_eqb_spec u a) as [->|Hua']; simpl;
        try reflexivity; congruence.
    + destruct und; simpl; [|reflexivity].
      destruct (str_eqb_spec v a) as [->|Hva];
        destruct (str_eqb_spec u b) as [->|Hub]; simpl;
        try reflexivity.
      elim (Hno raw (or_introl eq_refl)). right. auto.
Qed.

(** X7: [graph[a][b]] holds the weight of the last edge line that writes it
    (a line [a b], or also a line [b a] when the graph is undirected), and
    is undefined when the text has no such line: a directed graph gets no
    reverse edges. *)
Theorem parseEdges_edge_of_last_line (text : jsstring) (und : bool)
  (g : Graph) (a b : jsstring) :
  parseEdges text und = Ok g ->
  (forall before raw after,
     splitLines text = before ++ raw :: after ->
     lineSets und raw a b ->
     (forall r, In r after -> ~ lineSets und r a b) ->
     edgeWeight g a b = Some (lineWeight (splitWs (trim raw)))) /\
  ((forall r, In r (splitLines text) -> ~ lineSets und r a b) ->
   edgeWeight g a b = None).
Proof.
  unfold parseEdges. intros Hparse. split.
  - intros before raw after Hsplit Hsets Hlast. rewrite Hsplit in Hparse.
    apply parseLines_app in Hparse. destruct Hparse as (g1 & _ & Hg).
    simpl in Hg.
    destruct (parseLine und g1 raw) as [g2|] eqn:Hline; [|discriminate].
    rewrite (edgeWeight_untouched und after g2 g a b Hg Hlast).
    apply parseLine_Ok in Hline.
    destruct Hline
      as [[Hs _]|(u & v & w & [(Hs & Hl & -> & ->) ->] & _ & ->)].
    + destruct Hsets as [(Hs' & _)|(_ & Hs' & _)]; congruence.
    + rewrite edgeWeight_addEdge.
      destruct Hsets as [(_ & _ & -> & ->)|(-> & _ & _ & -> & ->)].
      * now rewrite !str_eqb_refl.
      * rewrite !str_eqb_refl. simpl. now rewrite orb_true_r.
  - intros Hno.
    now rewrite (edgeWeight_untouched und _ [] g a b Hparse Hno).
Qed.
End ParseMore.

(** ** Fields are tokens *)

Lemma dropWhile_head {A : Type} (p : A -> bool) (l r : list A) (c : A) :
  dropWhile p l = c :: r -> p c = false.
Proof.
  induction l as [|x l IH]; simpl; [discriminate|].
  destruct (p x) eqn:Hx; [exact IH|]. now intros [= <- _].
Qed.

Lemma dropWhile_split {A : Type} (p : A -> bool) (l : list A) :
  exists w, l = w ++ dropWhile p l.
Proof.
  induction l as [|x l [w IH]]; simpl; [now exists []|].
  destruct (p x); [|now exists []].
  exists (x :: w). simpl. now rewrite <- IH.
Qed.

Lemma last_cons_cons {A : Type} (a b : A) (l : list A) (d : A) :
  last (a :: b :: l) d = last (b :: l) d.
Proof. reflexivity. Qed.

Lemma trim_head (raw r : jsstring) (c : N) :
  trim raw = c :: r -> is_ws c = false.
Proof.
  unfold trim, trimEnd, trimStart. intros H.
  destruct (dropWhile_split is_ws (rev (dropWhile is_ws raw))) as [w Hw].
  apply (f_equal (@rev N)) in Hw. rewrite rev_involutive, rev_app_distr in Hw.
  rewrite H in Hw. simpl in Hw.
  now apply (dropWhile_head is_ws raw (r ++ rev w) c).
Qed.

Lemma trim_last (raw : jsstring) :
  trim raw <> [] -> is_ws (last (trim raw) 0%N) = false.
Proof.
  unfold trim, trimEnd.
  destruct (dropWhile is_ws (rev (trimStart raw))) as [|c r] eqn:E.
  - simpl. congruence.
  - intros _. simpl. rewrite last_last.
    now apply (dropWhile_head is_ws _ r c E).
Qed.

Lemma splitWsFrom_tokens (s cur : jsstring) (insep : bool) :
  Forall (fun c => is_ws c = false) cur ->
  (insep = false -> cur <> []) ->
  match s with
  | [] => cur <> []
  | _ :: _ => is_ws (last s 0%N) = false
  end ->
  Forall token (splitWsFrom s cur insep).
Proof.
  revert cur insep. induction s as [|c s IH]; intros cur insep Hcur Hne Hend.
  - simpl. constructor; [|constructor]. split.
    + intros H. apply Hend. apply (f_equal (@rev N)) in H.
      now rewrite rev_involutive in H.
    + now apply Forall_rev.
  - simpl. destruct (is_ws c) eqn:Hc.
    + destruct s as [|c' s]; [simpl in Hend; congruence|].
      rewrite last_cons_cons in Hend.
      destruct insep.
      * apply IH; auto; discriminate.
      * constructor.
        -- split; [|now apply Forall_rev].
           intros H. apply (Hne eq_refl). apply (f_equal (@rev N)) in H.
           now rewrite rev_involutive in H.
        -- apply IH; [constructor | discriminate | exact Hend].
    + apply IH; [now constructor | discriminate |].
      destruct s as [|c' s]; [discriminate | exact Hend].
Qed.

Lemma splitWs_trim_tokens (raw : jsstring) :
  trim raw <> [] -> Forall token (splitWs (trim raw)).
Proof.
  intros Hne. pose proof (trim_last raw Hne) as Hlast.
  destruct (trim raw) as [|c r] eqn:E; [congruence|].
  pose proof (trim_head raw r c E) as Hc.
  unfold splitWs. simpl. rewrite Hc.
  apply splitWsFrom_tokens; [now repeat constructor | discriminate |].
  destruct r as [|c' r]; [discriminate | exact Hlast].
Qed.

Lemma nodeOfLine_token (raw x : jsstring) : nodeOfLine raw x -> token x.
Proof.
  intros (Hskip & Hlen & Hx).
  assert (Hne : trim raw <> []) by (intros H; rewrite H in Hskip; discriminate).
  pose proof (splitWs_trim_tokens raw Hne) as Htok.
  rewrite Forall_forall in Htok. apply Htok.
  destruct Hx as [-> | ->]; apply nth_In; lia.
Qed.

Section Tokens.
Context {JN : JSNumber}.

(** X8: every node name is a token, a non-empty string without white
    space: the names returned by [extractNodes], and the keys of a graph
    returned by [parseEdges]. *)
Theorem node_names_are_tokens (text : jsstring) :
  (forall k, In k (extractNodes text) -> token k) /\
  (forall und g, parseEdges text und = Ok g ->
     forall k, has g k = true -> token k).
Proof.
  assert (Hfold : forall k,
            In k (fold_left extractLine (splitLines text) []) -> token k).
  { intros k Hk. apply extractLines_In in Hk.
    destruct Hk as [[]|(raw & _ & Hraw)]. now apply (nodeOfLine_token raw). }
  split.
  - intros k Hk. apply Hfold. unfold extractNodes in Hk.
    eapply Permutation_in; [apply Permutation_sym, Array_sort_perm|].
    exact Hk.
  - intros und g Hparse k Hk. apply Hfold.
    apply keys_parseLines in Hparse. simpl in Hparse. rewrite <- Hparse.
    now apply has_In_keys.
Qed.

Lemma parseLines_all_skipped (und : bool) (lines : list jsstring)
  (g : Graph) :
  (forall raw, In raw lines -> skipLine (trim raw) = true) ->
  parseLines und lines g = Ok g.
Proof.
  induction lines as [|raw lines IH]; intros Hall; simpl; [reflexivity|].
  unfold parseLine. rewrite (Hall raw (or_introl eq_refl)).
  apply IH. intros r Hr. apply Hall. now right.
Qed.

Lemma parseLines_Ok_lines (und : bool) (lines : list jsstring)
  (g g' : Graph) (raw : jsstring) :
  parseLines und lines g = Ok g' -> In raw lines ->
  skipLine (trim raw) = true \/ exists u v, edgeEnds raw u v.
Proof.
  revert g. induction lines as [|r lines IH]; intros g; simpl; [tauto|].
  destruct (parseLine und g r) as [g1|] eqn:Hline; [|discriminate].
  intros Hrest [<-|Hin]; [|now apply (IH g1)].
  apply parseLine_Ok in Hline.
  destruct Hline as [[Hs _]|(u & v & w & [He _] & _)]; [now left|].
  right. eauto.
Qed.

(** X9: [parseEdges] returns the empty graph exactly when every line of the
    text is empty or a comment; in particular on the empty text. *)
Theorem parseEdges_empty_graph_iff (text : jsstring) (und : bool) :
  parseEdges text und = Ok [] <->
  forall raw, In raw (splitLines text) -> skipLine (trim raw) = true.
Proof.
  unfold parseEdges. split.
  - intros Hparse raw Hin.
    destruct (parseLines_Ok_lines und _ [] [] raw Hparse Hin)
      as [Hs|(u & v & Hs & Hlen & Hu & Hv)]; [exact Hs|].
    apply keys_parseLines in Hparse. simpl in Hparse.
    assert (Hk : In u (fold_left extractLine (splitLines text) [])).
    { apply extractLines_In. right. exists raw. split; [exact Hin|].
      split; [exact Hs|]. split; [exact Hlen|]. now left. }
    rewrite <- Hparse in Hk. destruct Hk.
  - apply parseLines_all_skipped.
Qed.

(** X10: every weight stored in a graph returned by [parseEdges] is finite
    and not below zero, and both ends of every edge are keys of the
    graph. *)
Theorem parseEdges_weights_valid (text : jsstring) (und : bool) (g : Graph)
  (a b : jsstring) (w : number) :
  parseEdges text und = Ok g ->
  edgeWeight g a b = Some w ->
  isFinite w = true /\ ltb w zero = false /\
  has g a = true /\ has g b = true.
Proof.
  intros Hparse He. pose proof (wf_graph_parseEdges _ _ _ Hparse) as Hwf.
  unfold edgeWeight in He.
  destruct (get g a) as [adj|] eqn:Ha; [|discriminate].
  destruct (proj2 (Hwf a adj Ha) b w He) as [[Hf Hn] Hb].
  unfold has. rewrite Ha. auto.
Qed.
End Tokens.

(** ** dijkstra: further properties of the result *)

Section DijkstraMore.
Context {JN : JSNumber} {JL : JSNumberLaws}.

Lemma distOf_finite_get (dmap : Map number) (n : jsstring) :
  isFinite (distOf dmap n) = true ->
  get dmap n = Some (distOf dmap n).
Proof.
  unfold distOf. destruct (get dmap n); [reflexivity|].
  rewrite Infinity_not_finite. discriminate.
Qed.

Lemma walkWeight_distance (g : Graph) (rest : list jsstring) (acc : number)
  (cur : jsstring) (d : number) :
  wf_graph g -> distance acc ->
  walkWeight g acc cur rest = Some d -> distance d.
Proof.
  intros Hwf. revert acc cur.
  induction rest as [|nxt rest IH]; intros acc cur Hacc; simpl.
  - now intros [= <-].
  - destruct (edgeWeight g cur nxt) as [w|] eqn:He; [|discriminate].
    destruct (wf_edge g cur nxt w Hwf He) as [Hw _].
    apply IH. now apply add_distance.
Qed.

(** X11: after [dijkstra], the source has distance 0 and the predecessor
    [null], and [reconstructPath] to the source returns the source alone. *)
Theorem dijkstra_source_entry (text : jsstring) (und : bool) (g : Graph)
  (source : jsstring) (fuel : nat) (dmap : Map number)
  (pmap : Map (option jsstring)) :
  parseEdges text und = Ok g ->
  dijkstra fuel g source = Some (Ok (dmap, pmap)) ->
  get dmap source = Some zero /\ get pmap source = Some None /\
  forall fuel', 1 <= fuel' ->
    reconstructPath fuel' pmap source = Some [source].
Proof.
  intros Hparse Hrun.
  pose proof (wf_graph_parseEdges _ _ _ Hparse) as Hwf.
  destruct (dijkstra_Ok_Inv fuel g source dmap pmap Hwf Hrun)
    as (Hs & st & HI & Hpq & <- & <-).
  destruct (inv_source g source st (proj1 HI)) as [Hd Hp].
  split; [|split].
  - rewrite <- Hd. apply distOf_finite_get. rewrite Hd. apply zero_finite.
  - pose proof (inv_keys_prev g source st (proj1 HI) source) as Hk.
    apply has_In_keys in Hs. apply Hk in Hs. apply has_In_keys in Hs.
    unfold has, prevOf in *. destruct (get (prev st) source);
      [now subst | discriminate].
  - intros fuel' Hfuel. unfold reconstructPath.
    destruct fuel' as [|fuel']; [lia|]. simpl. rewrite Hp.
    now destruct fuel'.
Qed.

(** X12: after [dijkstra], every node that some path from the source
    reaches with a finite summed weight has a finite distance, not above
    that weight. *)
Theorem dijkstra_reaches_every_finite_path (text : jsstring) (und : bool)
  (g : Graph) (source : jsstring) (fuel : nat) (dmap : Map number)
  (pmap : Map (option jsstring)) (n : jsstring) (p : list jsstring)
  (d' : number) :
  parseEdges text und = Ok g ->
  dijkstra fuel g source = Some (Ok (dmap, pmap)) ->
  isPath g source n p d' -> isFinite d' = true ->
  exists d, get dmap n = Some d /\ isFinite d = true /\ ltb d' d = false.
Proof.
  intros Hparse Hrun Hp Hf.
  pose proof (wf_graph_parseEdges _ _ _ Hparse) as Hwf.
  destruct (dijkstra_Ok_Inv fuel g source dmap pmap Hwf Hrun)
    as (_ & st & HI & Hpq & <- & <-).
  apply isPath_walk in Hp. destruct Hp as (rest & _ & <- & Hw).
  assert (Hle : leq (distOf (dist st) (last rest source)) d').
  { apply (final_lower_bound g source st Hwf HI Hpq rest zero source d').
    - apply distance_zero.
    - rewrite (proj1 (inv_source g source st (proj1 HI))). apply leq_refl.
    - exact Hw. }
  assert (Hd' : distance d')
    by (apply (walkWeight_distance g rest zero source d' Hwf);
        [apply distance_zero | exact Hw]).
  assert (Hfin : isFinite (distOf (dist st) (last rest source)) = true).
  { apply (leq_finite _ d'); auto. apply (inv_dist g source st (proj1 HI)). }
  exists (distOf (dist st) (last rest source)).
  split; [now apply distOf_finite_get|]. split; [exact Hfin | exact Hle].
Qed.

(** X13: after [dijkstra], a predecessor link is a tight edge: when the
    predecessor of [v] is [u], the graph has the edge from [u] to [v], both
    distances are finite and that of [v] is that of [u] plus the weight of
    the edge; and every node of finite distance other than the source has a
    predecessor. *)
Theorem dijkstra_predecessor_edges_tight (text : jsstring) (und : bool)
  (g : Graph) (source : jsstring) (fuel : nat) (dmap : Map number)
  (pmap : Map (option jsstring)) :
  parseEdges text und = Ok g ->
  dijkstra fuel g source = Some (Ok (dmap, pmap)) ->
  (forall v u, get pmap v = Some (Some u) ->
     exists w du dv,
       edgeWeight g u v = Some w /\
       get dmap u = Some du /\ get dmap v = Some dv /\
       isFinite du = true /\ isFinite dv = true /\ dv = add du w) /\
  (forall v d, get dmap v = Some d -> isFinite d = true -> v <> source ->
     exists u, get pmap v = Some (Some u)).
Proof.
  intros Hparse Hrun.
  pose proof (wf_graph_parseEdges _ _ _ Hparse) as Hwf.
  destruct (dijkstra_Ok_Inv fuel g source dmap pmap Hwf Hrun)
    as (_ & st & HI & Hpq & <- & <-).
  split.
  - intros v u Hv.
    assert (Hp : prevOf (prev st) v = Some u) by (unfold prevOf; now rewrite Hv).
    destruct (inv_prev g source st (proj1 HI) v u Hp)
      as (Hu & w & He & Hd & Hf).
    destruct (inv_visited g source st (proj1 HI) u Hu) as [Hfu _].
    exists w, (distOf (dist st) u), (distOf (dist st) v).
    repeat split; auto using distOf_finite_get.
  - intros v d Hd Hf Hne. apply distOf_get in Hd. subst d.
    destruct (inv_reached g source st (proj1 HI) v Hf) as [->|[u Hu]];
      [congruence|].
    exists u. unfold prevOf in Hu.
    destruct (get (prev st) v) as [[x|]|]; congruence.
Qed.

(** X14: after [dijkstra], every edge out of a node of finite distance is
    relaxed: the distance of its end is not above the distance of its start
    plus its weight. *)
Theorem dijkstra_edges_relaxed (text : jsstring) (und : bool) (g : Graph)
  (source : jsstring) (fuel : nat) (dmap : Map number)
  (pmap : Map (option jsstring)) (u v : jsstring) (w du : number) :
  parseEdges text und = Ok g ->
  dijkstra fuel g source = Some (Ok (dmap, pmap)) ->
  edgeWeight g u v = Some w ->
  get dmap u = Some du -> isFinite du = true ->
  exists dv, get dmap v = Some dv /\ ltb (add du w) dv = false.
Proof.
  intros Hparse Hrun He Hdu Hf.
  pose proof (wf_graph_parseEdges _ _ _ Hparse) as Hwf.
  destruct (dijkstra_Ok_Inv fuel g source dmap pmap Hwf Hrun)
    as (_ & st & HI & Hpq & <- & <-).
  apply distOf_get in Hdu. subst du.
  pose proof (final_visited g source st HI Hpq u Hf) as Hu.
  pose proof (proj2 HI u v w Hu He) as Hrel. unfold relaxed in Hrel.
  destruct (wf_edge g u v w Hwf He) as [_ Hv].
  pose proof (inv_keys_dist g source st (proj1 HI) v) as Hk.
  apply has_In_keys in Hv. apply Hk in Hv. apply has_In_keys in Hv.
  apply has_get in Hv. destruct Hv as [dv Hdv].
  exists dv. split; [exact Hdv|].
  now rewrite <- (distOf_get _ _ _ Hdv).
Qed.

(** X15: every distance recorded by [dijkstra] is a finite number that is
    not below zero, or [Infinity]: never NaN, never negative. *)
Theorem dijkstra_distances_not_negative (text : jsstring) (und : bool)
  (g : Graph) (source : jsstring) (fuel : nat) (dmap : Map number)
  (pmap : Map (option jsstring)) (n : jsstring) (d : number) :
  parseEdges text und = Ok g ->
  dijkstra fuel g source = Some (Ok (dmap, pmap)) ->
  get dmap n = Some d ->
  (isFinite d = true /\ ltb d zero = false) \/ d = Infinity.
Proof.
  intros Hparse Hrun Hd.
  pose proof (wf_graph_parseEdges _ _ _ Hparse) as Hwf.
  destruct (dijkstra_Ok_Inv fuel g source dmap pmap Hwf Hrun)
    as (_ & st & HI & _ & <- & <-).
  apply distOf_get in Hd. subst d.
  apply (inv_dist g source st (proj1 HI) n).
Qed.
End DijkstraMore.

Section DijkstraTermination.
Context {JN : JSNumber}.

Lemma unsettled_nil (g : Graph) : unsettled g [] = entryCount g.
Proof. reflexivity. Qed.

(** X16: on every graph, whatever its weights, [dijkstra] finishes: after
    at most one iteration of its main loop more than the graph has adjacency
    entries it has thrown or returned. *)
Theorem dijkstra_terminates_on_every_graph (g : Graph) (source : jsstring)
  (fuel : nat) :
  S (entryCount g) <= fuel ->
  exists r, dijkstra fuel g source = Some r.
Proof.
  intros Hfuel. unfold dijkstra. destruct (initMaps g) as [d0 p0].
  destruct (has g source); simpl; [|eauto].
  destruct (loop_terminates g fuel
              (mkDState (set d0 source zero) p0 [] [(zero, source)]))
    as [st Hst].
  { unfold potential. simpl. rewrite unsettled_nil. lia. }
  rewrite Hst. eauto.
Qed.
End DijkstraTermination.

(** ** reconstructPath on any predecessor map *)

Section ReconstructMore.
Context {JN : JSNumber}.

Lemma reconstructLoop_linked (fuel : nat) (prev : Map (option jsstring))
  (c : jsstring) (acc out : list jsstring) :
  reconstructLoop fuel prev (Some c) acc = Some out ->
  exists chain,
    out = acc ++ chain /\ hd_error chain = Some c /\ linked prev chain.
Proof.
  revert c acc. induction fuel as [|fuel IH]; intros c acc; simpl;
    [discriminate|].
  destruct (prevOf prev c) as [y|] eqn:Hp.
  - intros H. destruct (IH y (acc ++ [c]) H) as (chain & -> & Hhd & Hl).
    exists (c :: chain). split; [now rewrite <- app_assoc|].
    split; [reflexivity|]. simpl.
    destruct chain as [|y' chain]; [discriminate|].
    injection Hhd as ->. auto.
  - destruct fuel; simpl; intros [= <-]; exists [c]; auto.
Qed.

(** X17: on any predecessor map, a sequence returned by [reconstructPath]
    is, read backwards, the chain of predecessor links from the target to a
    node without predecessor. *)
Theorem reconstructPath_follows_links (fuel : nat)
  (prev : Map (option jsstring)) (target : jsstring)
  (path : list jsstring) :
  reconstructPath fuel prev target = Some path ->
  exists chain,
    path = rev chain /\ hd_error chain = Some target /\ linked prev chain.
Proof.
  unfold reconstructPath.
  destruct (reconstructLoop fuel prev (Some target) []) as [out|] eqn:H;
    [|discriminate].
  intros [= <-]. apply reconstructLoop_linked in H.
  destruct H as (chain & -> & Hhd & Hl). exists chain. auto.
Qed.

Lemma reconstructLoop_cycle (S : jsstring -> Prop)
  (prev : Map (option jsstring)) :
  (forall x, S x -> exists y, prevOf prev x = Some y /\ S y) ->
  forall fuel c acc, S c -> reconstructLoop fuel prev (Some c) acc = None.
Proof.
  intros Hclosed. induction fuel as [|fuel IH]; intros c acc Hc; simpl;
    [reflexivity|].
  destruct (Hclosed c Hc) as (y & -> & Hy). now apply IH.
Qed.

(** X18: [reconstructPath] has no guard against cycles: when the target
    lies in a set of nodes each of which has a predecessor in the set, no
    number of iterations makes it return. *)
Theorem reconstructPath_diverges_on_cycle (S : jsstring -> Prop)
  (prev : Map (option jsstring)) (target : jsstring) (fuel : nat) :
  S target ->
  (forall x, S x -> exists y, prevOf prev x = Some y /\ S y) ->
  reconstructPath fuel prev target = None.
Proof.
  intros Ht Hclosed. unfold reconstructPath.
  now rewrite (reconstructLoop_cycle S prev Hclosed fuel target [] Ht).
Qed.
End ReconstructMore.

(** ** The submit handler *)

Section HandlerErrors.
Context {JN : JSNumber}.
Variable toFixed3 : number -> jsstring.
Variable stringifyDist : Map number -> jsstring.

Lemma parseLines_throw_nonempty (und : bool) (lines : list jsstring)
  (g : Graph) (m : jsstring) :
  parseLines und lines g = Throw m -> m <> [].
Proof.
  revert g. induction lines as [|raw lines IH]; intros g; simpl;
    [discriminate|].
  destruct (parseLine und g raw) as [g1|m1] eqn:Hline; [apply IH|].
  intros [= <-]. unfold parseLine in Hline.
  destruct (skipLine (trim raw)); [discriminate|].
  destruct (length (splitWs (trim raw)) <? 2).
  - injection Hline as <-. discriminate.
  - destruct (invalidWeight (lineWeight (splitWs (trim raw))));
      [|discriminate].
    injection Hline as <-. discriminate.
Qed.

(** X19: when [parseEdges] throws, or when the source is not a node of the
    parsed graph, the handler shows the error box with the escaped message
    of the thrown error (never the fallback name of the error), whatever the
    fuel. *)
Theorem submit_shows_thrown_message (fuel : nat)
  (edges source target : jsstring) (undirected : bool) (page : Page) :
  (forall m, parseEdges (trim edges) undirected = Throw m ->
     submit toFixed3 stringifyDist fuel edges source target undirected page
     = Some (mkPage (lit "<div class="%string ++ dquote
                     ++ lit "error"%string ++ dquote ++ lit ">"%string
                     ++ escapeHtml m ++ lit "</div>"%string) false)) /\
  (forall g, parseEdges (trim edges) undirected = Ok g ->
     has g (trim source) = false ->
     submit toFixed3 stringifyDist fuel edges source target undirected page
     = Some (mkPage (lit "<div class="%string ++ dquote
                     ++ lit "error"%string ++ dquote ++ lit ">"%string
                     ++ escapeHtml (lit "Source '"%string ++ trim source
                                    ++ lit "' not in graph."%string)
                     ++ lit "</div>"%string) false)).
Proof.
  split.
  - intros m Hparse. unfold submit. rewrite Hparse.
    unfold renderResult, errorHtml, messageText.
    pose proof (parseLines_throw_nonempty _ _ _ _ Hparse) as Hne.
    destruct m; [congruence | reflexivity].
  - intros g Hparse Hs. unfold submit. rewrite Hparse.
    unfold dijkstra. destruct (initMaps g). rewrite Hs. reflexivity.
Qed.
End HandlerErrors.

Section HandlerResults.
Context {JN : JSNumber} {JL : JSNumberLaws}.
Variable toFixed3 : number -> jsstring.
Variable stringifyDist : Map number -> jsstring.

(** X20: when the text parses to a graph in which some path of finite
    weight leads from the (trimmed) source to the (trimmed) target, the
    handler shows the result view, with a path from the source to the target
    along edges of the graph and its summed weight as total, and no path
    between the two has a smaller weight. *)
Theorem submit_shows_shortest_path (edges source target : jsstring)
  (undirected : bool) (page : Page) (g : Graph) (p : list jsstring)
  (d : number) :
  parseEdges (trim edges) undirected = Ok g ->
  has g (trim source) = true ->
  isPath g (trim source) (trim target) p d -> isFinite d = true ->
  exists path total dmap,
    (forall fuel, fuelBound g <= fuel -> length (keys g) <= fuel ->
       submit toFixed3 stringifyDist fuel edges source target undirected
         page
       = Some (mkPage (resultHtml toFixed3 stringifyDist path total dmap)
                 false)) /\
    isPath g (trim source) (trim target) path total /\
    isFinite total = true /\
    forall p' d', isPath g (trim source) (trim target) p' d' ->
                  ltb d' total = false.
Proof.
  intros Hparse Hs Hp Hf.
  pose proof (wf_graph_parseEdges _ _ _ Hparse) as Hwf.
  destruct (dijkstra_returns g (trim source) Hs) as (dmap & pmap & Hrun).
  destruct (dijkstra_Ok_Inv _ g (trim source) dmap pmap Hwf
              (Hrun _ (Nat.le_refl _)))
    as (_ & st & HI & Hpq & Hd & Hpm).
  assert (Hlow : forall p' d', isPath g (trim source) (trim target) p' d' ->
                   leq (distOf (dist st) (trim target)) d' /\ distance d').
  { intros p' d' Hp'. apply isPath_walk in Hp'.
    destruct Hp' as (rest & _ & <- & Hw). split.
    - apply (final_lower_bound g (trim source) st Hwf HI Hpq rest zero
               (trim source) d').
      + apply distance_zero.
      + rewrite (proj1 (inv_source g _ st (proj1 HI))). apply leq_refl.
      + exact Hw.
    - apply (walkWeight_distance g rest zero (trim source) d' Hwf);
        [apply distance_zero | exact Hw]. }
  destruct (Hlow p d Hp) as [Hle Hdd].
  assert (Hfin : isFinite (distOf (dist st) (trim target)) = true).
  { apply (leq_finite _ d); auto. apply (inv_dist g _ st (proj1 HI)). }
  destruct (chain_of_finite g (trim source) st HI Hpq (trim target) Hfin)
    as (chain & _ & Hlen & Hpath & Hrec).
  exists chain, (distOf (dist st) (trim target)), dmap.
  split; [|split; [exact Hpath|split; [exact Hfin|]]].
  - intros fuel Hfuel Hkeys. unfold submit. rewrite Hparse.
    rewrite (Hrun fuel Hfuel). subst dmap pmap.
    rewrite (distOf_finite_get _ _ Hfin), Hfin. simpl.
    rewrite Hrec by lia. reflexivity.
  - intros p' d' Hp'. apply (Hlow p' d' Hp').
Qed.

(** X21: when the text parses to a graph that holds the source and no path
    leads from the source to the target, the handler shows the no-path box,
    which names the source and the target as typed (escaped, not trimmed). *)
Theorem submit_shows_no_path (edges source target : jsstring)
  (undirected : bool) (page : Page) (g : Graph) (fuel : nat) :
  parseEdges (trim edges) undirected = Ok g ->
  has g (trim source) = true ->
  ~ reachable g (trim source) (trim target) ->
  fuelBound g <= fuel ->
  submit toFixed3 stringifyDist fuel edges source target undirected page
  = Some (mkPage (lit "<div class="%string ++ dquote ++ lit "error"%string
                  ++ dquote ++ lit ">No path found between "%string
                  ++ escapeHtml source ++ lit " and "%string
                  ++ escapeHtml target ++ lit ".</div>"%string) false).
Proof.
  intros Hparse Hs Hun Hfuel.
  pose proof (wf_graph_parseEdges _ _ _ Hparse) as Hwf.
  destruct (dijkstra_returns g (trim source) Hs) as (dmap & pmap & Hrun).
  destruct (dijkstra_Ok_Inv _ g (trim source) dmap pmap Hwf
              (Hrun _ (Nat.le_refl _)))
    as (_ & st & HI & Hpq & Hd & Hpm).
  unfold submit. rewrite Hparse, (Hrun fuel Hfuel). subst dmap pmap.
  assert (Hnf : isFinite (distOf (dist st) (trim target)) = false).
  { destruct (isFinite (distOf (dist st) (trim target))) eqn:Hf;
      [|reflexivity].
    destruct (chain_of_finite g (trim source) st HI Hpq (trim target) Hf)
      as (chain & _ & _ & Hpath & _).
    elim Hun. red. eauto. }
  unfold distOf in Hnf.
  destruct (get (dist st) (trim target)) as [total|]; [|reflexivity].
  rewrite Hnf. reflexivity.
Qed.

(** X22: the handler always finishes and shows the result container: for
    all values of the fields there is a number of loop iterations from which
    on it returns one and the same page, whose container is not hidden. *)
Theorem submit_always_renders (edges source target : jsstring)
  (undirected : bool) (page : Page) :
  exists bound html, forall fuel, bound <= fuel ->
    submit toFixed3 stringifyDist fuel edges source target undirected page
    = Some (mkPage html false).
Proof.
  unfold submit.
  destruct (parseEdges (trim edges) undirected) as [g|m] eqn:Hparse;
    [|exists 0; eexists; intros; reflexivity].
  pose proof (wf_graph_parseEdges _ _ _ Hparse) as Hwf.
  destruct (has g (trim source)) eqn:Hs.
  2: { exists 0. eexists. intros fuel _. unfold dijkstra.
       destruct (initMaps g). rewrite Hs. reflexivity. }
  destruct (dijkstra_returns g (trim source) Hs) as (dmap & pmap & Hrun).
  destruct (dijkstra_Ok_Inv _ g (trim source) dmap pmap Hwf
              (Hrun _ (Nat.le_refl _)))
    as (_ & st & HI & Hpq & Hd & Hpm).
  subst dmap pmap.
  destruct (get (dist st) (trim target)) as [total|] eqn:Ht.
  2: { exists (fuelBound g). eexists. intros fuel Hfuel.
       rewrite (Hrun fuel Hfuel), Ht. reflexivity. }
  destruct (isFinite total) eqn:Hf.
  2: { exists (fuelBound g). eexists. intros fuel Hfuel.
       rewrite (Hrun fuel Hfuel), Ht, Hf. reflexivity. }
  assert (Hfin : isFinite (distOf (dist st) (trim target)) = true)
    by (unfold distOf; now rewrite Ht).
  destruct (chain_of_finite g (trim source) st HI Hpq (trim target) Hfin)
    as (chain & _ & Hlen & _ & Hrec).
  exists (Nat.max (fuelBound g) (length chain)). eexists.
  intros fuel Hfuel.
  rewrite (Hrun fuel) by lia. rewrite Ht, Hf. simpl.
  rewrite Hrec by lia. reflexivity.
Qed.
End HandlerResults.

(** ** dijkstra: the order of the keys *)

Section KeyOrder.
Context {JN : JSNumber}.

Lemma keys_set_present {V : Type} (m : Map V) (k : jsstring) (v : V) :
  In k (keys m) -> keys (set m k v) = keys m.
Proof.
  intros Hk. apply has_In_keys in Hk. now rewrite keys_set, Hk.
Qed.

Lemma initMaps_fold_keys (l : list jsstring)
  (dp : Map number * Map (option jsstring)) :
  NoDup l ->
  (forall k, In k l -> ~ In k (keys (fst dp)) /\ ~ In k (keys (snd dp))) ->
  let dp' :=
    fold_left (fun dp u => (set (fst dp) u Infinity, set (snd dp) u None))
      l dp in
  keys (fst dp') = keys (fst dp) ++ l /\
  keys (snd dp') = keys (snd dp) ++ l.
Proof.
  revert dp. induction l as [|u l IH]; intros dp Hnd Hfresh; simpl.
  - now rewrite !app_nil_r.
  - inversion Hnd as [|? ? Hu Hnd']; subst.
    destruct (Hfresh u (or_introl eq_refl)) as [Hd Hp].
    assert (Hkd : keys (set (fst dp) u Infinity) = keys (fst dp) ++ [u]).
    { rewrite keys_set. destruct (has (fst dp) u) eqn:E; [|reflexivity].
      apply has_In_keys in E. contradiction. }
    assert (Hkp : keys (set (snd dp) u None) = keys (snd dp) ++ [u]).
    { rewrite keys_set. destruct (has (snd dp) u) eqn:E; [|reflexivity].
      apply has_In_keys in E. contradiction. }
    destruct (IH (set (fst dp) u Infinity, set (snd dp) u None) Hnd')
      as [H1 H2].
    { intros k Hk. simpl. rewrite Hkd, Hkp, !in_app_iff. simpl.
      destruct (Hfresh k (or_intror Hk)) as [Hd' Hp'].
      assert (k <> u) by (intros ->; contradiction).
      intuition congruence. }
    simpl in H1, H2. rewrite H1, H2, Hkd, Hkp, <- !app_assoc. auto.
Qed.

Lemma relax_keys (g : Graph) (d : number) (u : jsstring) (st : DState)
  (v : jsstring) (w : number) :
  has g v = true ->
  keys (dist st) = keys g /\ keys (prev st) = keys g ->
  keys (dist (relax d u st (v, w))) = keys g /\
  keys (prev (relax d u st (v, w))) = keys g.
Proof.
  intros Hv [Hd Hp]. unfold relax.
  destruct (ltb (add d w) (distOf (dist st) v)); [|auto].
  simpl. apply has_In_keys in Hv.
  rewrite !keys_set_present; auto; congruence.
Qed.

Lemma relax_all_keys (g : Graph) (d : number) (u : jsstring)
  (adj : list (jsstring * number)) (st : DState) :
  (forall v w, In (v, w) adj -> has g v = true) ->
  keys (dist st) = keys g /\ keys (prev st) = keys g ->
  keys (dist (fold_left (relax d u) adj st)) = keys g /\
  keys (prev (fold_left (relax d u) adj st)) = keys g.
Proof.
  revert st. induction adj as [|[v w] adj IH]; intros st Hadj Hk; simpl.
  - exact Hk.
  - apply IH; [intros v' w' H; apply (Hadj v' w'); now right|].
    apply relax_keys; [apply (Hadj v w); now left | exact Hk].
Qed.

Lemma loop_keys (fuel : nat) (g : Graph) (st st' : DState) :
  wf_graph g ->
  keys (dist st) = keys g /\ keys (prev st) = keys g ->
  loop fuel g st = Some st' ->
  keys (dist st') = keys g /\ keys (prev st') = keys g.
Proof.
  intros Hwf. revert st. induction fuel as [|fuel IH]; intros st Hk; simpl.
  - destruct (pq st); [|discriminate]. now intros [= <-].
  - destruct (pq st) eqn:Hpq; [now intros [= <-]|].
    apply IH. unfold step.
    destruct (pop (pq st)) as [[[d u] rest]|]; [|exact Hk].
    destruct (Set_has (visited st) u); [exact Hk|].
    apply relax_all_keys; [|exact Hk].
    intros v w. now apply adjOf_closed.
Qed.

(** X23: the distance map and the predecessor map returned by [dijkstra]
    list the nodes in the order of the keys of the graph, the order in which
    the text first names them. *)
Theorem dijkstra_maps_keep_key_order (text : jsstring) (und : bool)
  (g : Graph) (source : jsstring) (fuel : nat) (dmap : Map number)
  (pmap : Map (option jsstring)) :
  parseEdges text und = Ok g ->
  dijkstra fuel g source = Some (Ok (dmap, pmap)) ->
  keys dmap = keys g /\ keys pmap = keys g /\
  keys g = fold_left extractLine (splitLines text) [].
Proof.
  intros Hparse Hrun.
  pose proof (wf_graph_parseEdges _ _ _ Hparse) as Hwf.
  pose proof (NoDup_keys_parseEdges _ _ _ Hparse) as Hnd.
  assert (Hkeys : keys g = fold_left extractLine (splitLines text) [])
    by (apply keys_parseLines in Hparse; exact Hparse).
  destruct (initMaps_fold_keys (keys g) ([], []) Hnd) as [Hd0 Hp0];
    [simpl; tauto|].
  unfold dijkstra in Hrun. fold (initMaps g) in Hd0, Hp0.
  destruct (initMaps g) as [d0 p0]. simpl in Hd0, Hp0.
  destruct (has g source) eqn:Hs; simpl in Hrun; [|discriminate].
  destruct (loop fuel g _) as [st|] eqn:Hloop; [|discriminate].
  injection Hrun as <- <-.
  assert (Hd1 : keys (set d0 source zero) = keys g).
  { rewrite keys_set_present; [exact Hd0|].
    rewrite Hd0. now apply has_In_keys. }
  apply (loop_keys fuel g _ st Hwf) in Hloop;
    [|split; [exact Hd1 | exact Hp0]].
  destruct Hloop as [H1 H2]. auto.
Qed.
End KeyOrder.

(** ** White space around the text *)

Lemma dropWhile_app_nonempty {A : Type} (p : A -> bool) (a b : list A) :
  dropWhile p a <> [] -> dropWhile p (a ++ b) = dropWhile p a ++ b.
Proof.
  induction a as [|x a IH]; simpl; [congruence|].
  destruct (p x); [exact IH | reflexivity].
Qed.

Lemma dropWhile_app_all {A : Type} (p : A -> bool) (a b : list A) :
  dropWhile p a = [] -> dropWhile p (a ++ b) = dropWhile p b.
Proof.
  induction a as [|x a IH]; simpl; [reflexivity|].
  destruct (p x); [exact IH | discriminate].
Qed.

Lemma dropWhile_split_all {A : Type} (p : A -> bool) (l : list A) :
  exists w, l = w ++ dropWhile p l /\ Forall (fun x => p x = true) w.
Proof.
  induction l as [|x l (w & IH & Hw)]; simpl.
  - exists []. split; [reflexivity | constructor].
  - destruct (p x) eqn:Hx.
    + exists (x :: w). split; [simpl; now rewrite <- IH | now constructor].
    + exists []. split; [reflexivity | constructor].
Qed.

Lemma trim_cons_ws (c : N) (x : jsstring) :
  is_ws c = true -> trim (c :: x) = trim x.
Proof. intros Hc. unfold trim, trimStart. simpl. now rewrite Hc. Qed.

Lemma trim_snoc_ws (c : N) (x : jsstring) :
  is_ws c = true -> trim (x ++ [c]) = trim x.
Proof.
  intros Hc. unfold trim, trimEnd, trimStart.
  destruct (dropWhile is_ws x) as [|y r] eqn:E.
  - rewrite (dropWhile_app_all is_ws x [c] E). simpl. now rewrite Hc.
  - rewrite (dropWhile_app_nonempty is_ws x [c]) by (rewrite E; discriminate).
    rewrite E, rev_app_distr. simpl. now rewrite Hc.
Qed.

Lemma splitLinesFrom_cur (s cur : jsstring) :
  exists hd tl,
    splitLinesFrom s [] = hd :: tl /\
    splitLinesFrom s cur = (rev cur ++ hd) :: tl.
Proof.
  revert cur. induction s as [|c rest IH]; intros cur.
  - exists [], []. simpl. now rewrite app_nil_r.
  - assert (Hpush : exists hd tl,
              splitLinesFrom rest [c] = hd :: tl /\
              splitLinesFrom rest (c :: cur) = (rev cur ++ hd) :: tl).
    { destruct (IH [c]) as (h1 & t1 & H0 & H1).
      destruct (IH (c :: cur)) as (h2 & t2 & H0' & H2).
      rewrite H0 in H0'. injection H0' as <- <-.
      exists ([c] ++ h1), t1. split; [exact H1|].
      rewrite H2. simpl. now rewrite <- app_assoc. }
    simpl. destruct (c =? 10)%N.
    { exists [], (splitLinesFrom rest []). now rewrite app_nil_r. }
    destruct (c =? 13)%N; [|exact Hpush].
    destruct rest as [|d rest']; [exact Hpush|].
    destruct (d =? 10)%N; [|exact Hpush].
    exists [], (splitLinesFrom rest' []). now rewrite app_nil_r.
Qed.

Section TrimRedundant.
Context {JN : JSNumber}.

Lemma parseLine_trim_eq (und : bool) (g : Graph) (a b : jsstring) :
  trim a = trim b -> parseLine und g a = parseLine und g b.
Proof. intros H. unfold parseLine. now rewrite H. Qed.

Lemma parseLines_head_eq (und : bool) (g : Graph) (a b : jsstring)
  (l : list jsstring) :
  trim a = trim b -> parseLines und (a :: l) g = parseLines und (b :: l) g.
Proof. intros H. simpl. now rewrite (parseLine_trim_eq und g a b H). Qed.

Lemma parseLines_blank (und : bool) (g : Graph) (a : jsstring)
  (l : list jsstring) :
  trim a = [] -> parseLines und (a :: l) g = parseLines und l g.
Proof. intros H. simpl. unfold parseLine. now rewrite H. Qed.

Lemma parseLines_last_blank (und : bool) (g : Graph) (a b : jsstring) :
  trim b = [] -> parseLines und [a; b] g = parseLines und [a] g.
Proof.
  intros H. simpl. destruct (parseLine und g a); [|reflexivity].
  unfold parseLine. now rewrite H.
Qed.

Lemma leading_ws_char (und : bool) (g : Graph) (c : N) (s : jsstring) :
  is_ws c = true ->
  parseLines und (splitLines (c :: s)) g = parseLines und (splitLines s) g.
Proof.
  intros Hc. unfold splitLines.
  assert (Hpush : parseLines und (splitLinesFrom s [c]) g
                  = parseLines und (splitLinesFrom s []) g).
  { destruct (splitLinesFrom_cur s [c]) as (hd & tl & -> & ->).
    apply parseLines_head_eq. simpl. now apply trim_cons_ws. }
  simpl. destruct (c =? 10)%N.
  { now apply parseLines_blank. }
  destruct (c =? 13)%N; [|exact Hpush].
  destruct s as [|d rest']; [exact Hpush|].
  destruct (N.eqb_spec d 10) as [->|Hd]; [|exact Hpush].
  simpl. reflexivity.
Qed.

Lemma trimStart_same (und : bool) (g : Graph) (text : jsstring) :
  parseLines und (splitLines (trimStart text)) g
  = parseLines und (splitLines text) g.
Proof.
  unfold trimStart. induction text as [|c s IH]; simpl; [reflexivity|].
  destruct (is_ws c) eqn:Hc; [|reflexivity].
  now rewrite IH, (leading_ws_char und g c s Hc).
Qed.

Lemma trailing_ws_alone (und : bool) (c : N) (cur : jsstring) (g : Graph) :
  is_ws c = true ->
  parseLines und (splitLinesFrom [c] cur) g
  = parseLines und (splitLinesFrom [] cur) g.
Proof.
  intros Hc.
  assert (Hpush : parseLines und [rev (c :: cur)] g
                  = parseLines und [rev cur] g).
  { apply parseLines_head_eq. simpl. now apply trim_snoc_ws. }
  simpl. destruct (c =? 10)%N.
  { now apply parseLines_last_blank. }
  destruct (c =? 13)%N; exact Hpush.
Qed.

Lemma trailing_ws_char (und : bool) (c : N) :
  is_ws c = true ->
  forall n s, length s <= n -> forall cur g,
    parseLines und (splitLinesFrom (s ++ [c]) cur) g
    = parseLines und (splitLinesFrom s cur) g.
Proof.
  intros Hc. induction n as [|n IH]; intros s Hlen cur g.
  - destruct s; [|simpl in Hlen; lia]. now apply trailing_ws_alone.
  - destruct s as [|a s']; [now apply trailing_ws_alone|].
    simpl in Hlen.
    assert (Hpush : parseLines und (splitLinesFrom (s' ++ [c]) (a :: cur)) g
                    = parseLines und (splitLinesFrom s' (a :: cur)) g)
      by (apply IH; lia).
    change ((a :: s') ++ [c]) with (a :: (s' ++ [c])).
    cbn [splitLinesFrom]. destruct (a =? 10)%N.
    { simpl. destruct (parseLine und g (rev cur)); [|reflexivity].
      apply IH. lia. }
    destruct (N.eqb_spec a 13) as [->|Ha]; [|exact Hpush].
    destruct s' as [|d r].
    + simpl app. cbv iota. destruct (N.eqb_spec c 10) as [->|Hc10].
      * transitivity (parseLines und [rev cur] g).
        -- apply (parseLines_last_blank und g (rev cur) []). reflexivity.
        -- apply (parseLines_head_eq und g (rev cur) (rev (13%N :: cur))).
           simpl. symmetry. now apply trim_snoc_ws.
      * now apply trailing_ws_alone.
    + change ((d :: r) ++ [c]) with (d :: (r ++ [c])). cbv iota.
      destruct (d =? 10)%N; [|exact Hpush].
      simpl. destruct (parseLine und g (rev cur)); [|reflexivity].
      apply IH. simpl in Hlen. lia.
Qed.

Lemma trailing_ws (und : bool) (w : jsstring) :
  Forall (fun c => is_ws c = true) w ->
  forall t g,
    parseLines und (splitLines (t ++ w)) g = parseLines und (splitLines t) g.
Proof.
  induction 1 as [|c w Hc _ IH]; intros t g.
  - now rewrite app_nil_r.
  - change (t ++ c :: w) with (t ++ [c] ++ w). rewrite app_assoc, IH.
    unfold splitLines. now apply (trailing_ws_char und c Hc (length t)).
Qed.

Lemma trimEnd_same (und : bool) (g : Graph) (text : jsstring) :
  parseLines und (splitLines (trimEnd text)) g
  = parseLines und (splitLines text) g.
Proof.
  unfold trimEnd.
  destruct (dropWhile_split_all is_ws (rev text)) as (w & Hw & Hall).
  apply (f_equal (@rev N)) in Hw.
  rewrite rev_involutive, rev_app_distr in Hw.
  rewrite Hw at 2. symmetry. apply trailing_ws. now apply Forall_rev.
Qed.

(** X24: white space around the text does not matter to [parseEdges]: on
    the trimmed text, as the submit handler passes it, the result (the graph
    or the error) is the one on the text itself. *)
Theorem parseEdges_trim_redundant (text : jsstring) (und : bool) :
  parseEdges (trim text) und = parseEdges text und.
Proof.
  unfold parseEdges, trim. now rewrite trimEnd_same, trimStart_same.
Qed.
End TrimRedundant.

(** * The further properties on sample inputs *)

Section MoreOnSamples.
Import IntNumber Samples MoreSamples.

Lemma escapeHtml_injective_without_backslash_witness :
  ~ In 92%N lineAB5 /\ ~ In 92%N lineAB5 /\
  (escapeHtml lineAB5 = escapeHtml lineAB5 -> lineAB5 = lineAB5).
Proof.
  assert (H : ~ In 92%N lineAB5)
    by (cbv; intros H; repeat destruct H as [H|H]; try discriminate H; exact H).
  split; [exact H|]. split; [exact H|].
  exact (escapeHtml_injective_without_backslash lineAB5 lineAB5 H H).
Defined.

Lemma extractNodes_is_sorted_graph_keys_witness :
  parseEdges chainText true = Ok chainGraph /\
  extractNodes chainText
  = Array_sort (fun x y => str_ltb y x) (keys chainGraph) /\
  forall k, In k (extractNodes chainText) <-> has chainGraph k = true.
Proof.
  split; [reflexivity|].
  apply (@extractNodes_is_sorted_graph_keys IntJSNumber chainText true
           chainGraph). reflexivity.
Defined.

Lemma parseEdges_undirected_symmetric_witness :
  parseEdges chainText true = Ok chainGraph /\
  edgeWeight chainGraph A B = edgeWeight chainGraph B A.
Proof.
  split; [reflexivity|].
  apply (@parseEdges_undirected_symmetric IntJSNumber chainText chainGraph
           A B). reflexivity.
Defined.

Lemma parseEdges_edge_of_last_line_witness :
  parseEdges chainText false = Ok chainDirected /\
  (forall before raw after,
     splitLines chainText = before ++ raw :: after ->
     lineSets false raw A B ->
     (forall r, In r after -> ~ lineSets false r A B) ->
     edgeWeight chainDirected A B = Some (lineWeight (splitWs (trim raw))))
  /\
  ((forall r, In r (splitLines chainText) -> ~ lineSets false r A B) ->
   edgeWeight chainDirected A B = None).
Proof.
  split; [reflexivity|].
  apply (@parseEdges_edge_of_last_line IntJSNumber chainText false
           chainDirected A B). reflexivity.
Defined.

Lemma parseEdges_weights_valid_witness :
  parseEdges chainText true = Ok chainGraph /\
  edgeWeight chainGraph B C = Some (Fin 3) /\
  isFinite (Fin 3) = true /\ ltb (Fin 3) zero = false /\
  has chainGraph B = true /\ has chainGraph C = true.
Proof.
  split; [reflexivity|]. split; [reflexivity|].
  apply (@parseEdges_weights_valid IntJSNumber chainText true chainGraph
           B C (Fin 3)); reflexivity.
Defined.

Lemma dijkstra_source_entry_witness :
  JSNumberLaws /\
  parseEdges chainText true = Ok chainGraph /\
  dijkstra 4 chainGraph A = Some (Ok (chainDist, chainPrev)) /\
  get chainDist A = Some zero /\ get chainPrev A = Some None /\
  forall fuel', 1 <= fuel' -> reconstructPath fuel' chainPrev A = Some [A].
Proof.
  split; [exact IntNumber_laws|].
  split; [reflexivity|]. split; [reflexivity|].
  apply (@dijkstra_source_entry IntJSNumber IntNumber_laws chainText true
           chainGraph A 4 chainDist chainPrev); reflexivity.
Defined.

Lemma chain_path_ABC : isPath chainGraph A C [A; B; C] (Fin 8).
Proof. repeat split. Qed.

Lemma dijkstra_reaches_every_finite_path_witness :
  JSNumberLaws /\
  parseEdges chainText true = Ok chainGraph /\
  dijkstra 4 chainGraph A = Some (Ok (chainDist, chainPrev)) /\
  isPath chainGraph A C [A; B; C] (Fin 8) /\ isFinite (Fin 8) = true /\
  exists d, get chainDist C = Some d /\ isFinite d = true /\
            ltb (Fin 8) d = false.
Proof.
  split; [exact IntNumber_laws|].
  split; [reflexivity|]. split; [reflexivity|].
  split; [exact chain_path_ABC|]. split; [reflexivity|].
  apply (@dijkstra_reaches_every_finite_path IntJSNumber IntNumber_laws
           chainText true chainGraph A 4 chainDist chainPrev C [A; B; C]
           (Fin 8));
    [reflexivity | reflexivity | exact chain_path_ABC | reflexivity].
Defined.

Lemma dijkstra_predecessor_edges_tight_witness :
  JSNumberLaws /\
  parseEdges chainText true = Ok chainGraph /\
  dijkstra 4 chainGraph A = Some (Ok (chainDist, chainPrev)) /\
  (forall v u, get chainPrev v = Some (Some u) ->
     exists w du dv,
       edgeWeight chainGraph u v = Some w /\
       get chainDist u = Some du /\ get chainDist v = Some dv /\
       isFinite du = true /\ isFinite dv = true /\ dv = add du w) /\
  (forall v d, get chainDist v = Some d -> isFinite d = true -> v <> A ->
     exists u, get chainPrev v = Some (Some u)).
Proof.
  split; [exact IntNumber_laws|].
  split; [reflexivity|]. split; [reflexivity|].
  apply (@dijkstra_predecessor_edges_tight IntJSNumber IntNumber_laws
           chainText true chainGraph A 4 chainDist chainPrev); reflexivity.
Defined.

Lemma dijkstra_edges_relaxed_witness :
  JSNumberLaws /\
  parseEdges chainText true = Ok chainGraph /\
  dijkstra 4 chainGraph A = Some (Ok (chainDist, chainPrev)) /\
  edgeWeight chainGraph C B = Some (Fin 3) /\
  get chainDist C = Some (Fin 8) /\ isFinite (Fin 8) = true /\
  exists dv, get chainDist B = Some dv /\
             ltb (add (Fin 8) (Fin 3)) dv = false.
Proof.
  split; [exact IntNumber_laws|].
  split; [reflexivity|]. split; [reflexivity|].
  split; [reflexivity|]. split; [reflexivity|]. split; [reflexivity|].
  apply (@dijkstra_edges_relaxed IntJSNumber IntNumber_laws chainText true
           chainGraph A 4 chainDist chainPrev C B (Fin 3) (Fin 8));
    reflexivity.
Defined.

Lemma dijkstra_distances_not_negative_witness :
  JSNumberLaws /\
  parseEdges chainText false = Ok chainDirected /\
  dijkstra 4 chainDirected C = Some (Ok (directedDist, directedPrev)) /\
  get directedDist A = Some PosInf /\
  ((isFinite PosInf = true /\ ltb PosInf zero = false) \/
   PosInf = Infinity).
Proof.
  split; [exact IntNumber_laws|].
  split; [reflexivity|]. split; [reflexivity|]. split; [reflexivity|].
  apply (@dijkstra_distances_not_negative IntJSNumber IntNumber_laws
           chainText false chainDirected C 4 directedDist directedPrev A
           PosInf); reflexivity.
Defined.

Lemma dijkstra_terminates_on_every_graph_witness :
  S (entryCount negativeGraph) <= 3 /\
  exists r, dijkstra 3 negativeGraph A = Some r.
Proof.
  assert (H : S (entryCount negativeGraph) <= 3) by (cbv; lia).
  split; [exact H|].
  exact (@dijkstra_terminates_on_every_graph IntJSNumber negativeGraph A 3
           H).
Defined.

Lemma reconstructPath_follows_links_witness :
  reconstructPath 3 chainPrev C = Some [A; B; C] /\
  exists chain,
    [A; B; C] = rev chain /\ hd_error chain = Some C /\
    linked chainPrev chain.
Proof.
  split; [reflexivity|].
  apply (reconstructPath_follows_links 3 chainPrev C [A; B; C]).
  reflexivity.
Defined.

Lemma loopPrev_closed :
  forall x, x = A -> exists y, prevOf loopPrev x = Some y /\ y = A.
Proof. intros x ->. exists A. split; reflexivity. Qed.

Lemma reconstructPath_diverges_on_cycle_witness :
  A = A /\
  (forall x, x = A -> exists y, prevOf loopPrev x = Some y /\ y = A) /\
  reconstructPath 1000 loopPrev A = None.
Proof.
  split; [reflexivity|]. split; [exact loopPrev_closed|].
  exact (reconstructPath_diverges_on_cycle (fun x => x = A) loopPrev A 1000
           eq_refl loopPrev_closed).
Defined.

Lemma spaced_path_ABC : isPath chainGraph (trim spacedA) (trim C) [A; B; C] (Fin 8).
Proof. repeat split. Qed.

Lemma submit_shows_shortest_path_witness :
  JSNumberLaws /\
  parseEdges (trim spacedText) true = Ok chainGraph /\
  has chainGraph (trim spacedA) = true /\
  isPath chainGraph (trim spacedA) (trim C) [A; B; C] (Fin 8) /\
  isFinite (Fin 8) = true /\
  exists path total dmap,
    (forall fuel, fuelBound chainGraph <= fuel ->
       length (keys chainGraph) <= fuel ->
       submit plainFixed plainStringify fuel spacedText spacedA C true
         (mkPage [] true)
       = Some (mkPage (resultHtml plainFixed plainStringify path total dmap)
                 false)) /\
    isPath chainGraph (trim spacedA) (trim C) path total /\
    isFinite total = true /\
    forall p' d', isPath chainGraph (trim spacedA) (trim C) p' d' ->
                  ltb d' total = false.
Proof.
  split; [exact IntNumber_laws|].
  split; [reflexivity|]. split; [reflexivity|].
  split; [exact spaced_path_ABC|]. split; [reflexivity|].
  apply (@submit_shows_shortest_path IntJSNumber IntNumber_laws plainFixed
           plainStringify spacedText spacedA C true (mkPage [] true)
           chainGraph [A; B; C] (Fin 8));
    [reflexivity | reflexivity | exact spaced_path_ABC | reflexivity].
Defined.

Lemma submit_shows_no_path_witness :
  JSNumberLaws /\
  parseEdges (trim chainText) false = Ok chainDirected /\
  has chainDirected (trim C) = true /\
  ~ reachable chainDirected (trim C) (trim A) /\
  fuelBound chainDirected <= 3 /\
  submit plainFixed plainStringify 3 chainText C A false (mkPage [] true)
  = Some (mkPage (lit "<div class="%string ++ dquote ++ lit "error"%string
                  ++ dquote ++ lit ">No path found between "%string
                  ++ escapeHtml C ++ lit " and "%string
                  ++ escapeHtml A ++ lit ".</div>"%string) false).
Proof.
  assert (Hb : fuelBound chainDirected <= 3) by (cbv; lia).
  split; [exact IntNumber_laws|].
  split; [reflexivity|]. split; [reflexivity|].
  split; [exact chainDirected_unreachable|]. split; [exact Hb|].
  apply (@submit_shows_no_path IntJSNumber IntNumber_laws plainFixed
           plainStringify chainText C A false (mkPage [] true)
           chainDirected 3);
    [reflexivity | reflexivity | exact chainDirected_unreachable | exact Hb].
Defined.

Lemma submit_always_renders_witness :
  JSNumberLaws /\
  exists bound html, forall fuel, bound <= fuel ->
    submit plainFixed plainStringify fuel spacedText spacedA C true
      (mkPage [] true)
    = Some (mkPage html false).
Proof.
  split; [exact IntNumber_laws|].
  exact (@submit_always_renders IntJSNumber IntNumber_laws plainFixed
           plainStringify spacedText spacedA C true (mkPage [] true)).
Defined.

Lemma dijkstra_maps_keep_key_order_witness :
  parseEdges chainText true = Ok chainGraph /\
  dijkstra 4 chainGraph A = Some (Ok (chainDist, chainPrev)) /\
  keys chainDist = keys chainGraph /\ keys chainPrev = keys chainGraph /\
  keys chainGraph = fold_left extractLine (splitLines chainText) [].
Proof.
  split; [reflexivity|]. split; [reflexivity|].
  apply (@dijkstra_maps_keep_key_order IntJSNumber chainText true chainGraph
           A 4 chainDist chainPrev); reflexivity.
Defined.

(** The handler on sample values. *)

Example submit_sample_result :
  submit plainFixed plainStringify 4 spacedText spacedA C true
    (mkPage [] true)
  = Some (mkPage (resultHtml plainFixed plainStringify [A; B; C] (Fin 8)
                    chainDist) false).
Proof. reflexivity. Qed.

Example submit_sample_error :
  submit plainFixed plainStringify 0 (lit "<b>"%string) A B true
    (mkPage [] true)
  = Some (mkPage
            (lit "<div class="%string ++ dquote ++ lit "error"%string
             ++ dquote
             ++ lit ">Invalid edge line (need at least u v): &lt;b&gt;</div>"%string)
            false).
Proof. reflexivity. Qed.

Example escapeHtml_sample :
  escapeHtml (lit "a<b & c>d"%string ++ [92%N; 34%N; 39%N])
  = lit "a&lt;b &amp; c&gt;dundefined&quot;&#39;"%string.
Proof. reflexivity. Qed.
End MoreOnSamples.
